(** * Bulls and Cows: the entropy-guided solver and the scoring function

    A shallow embedding of [Bulls_and_Cows_Computer_Guessing.py] and of the
    scoring function of [Bulls_and_Cows_User_Guessing.py], followed by the
    properties of the scorer, the candidate filter, the entropy estimator and
    the guess selector.

    Conventions of the embedding:
    - a Python [str] is a [string] and its characters are [ascii]: the
      programs handle digit strings; [list(s)] is [list_ascii_of_string s];
    - a Python [int] is a [Z];
    - a Python [float] is a real number: the arithmetic of
      [calculate_entropy] and [find_best_guess] is exact here, rounding is
      not modelled;
    - a computation that can raise ([IndexError] on [l[i]], [ValueError] on
      [l.index(x)] and on [math.log2] of a non-positive number) returns an
      [option], [None] standing for the exception;
    - a [dict] is an association list in insertion order, which is the order
      in which Python iterates over it. *)

From Stdlib Require Import ZArith List Ascii String Reals Lra Lia.
From stdpp Require Import base option list gmap strings.

(** ** Python prelude *)

Module Py.

(** [for x in xs: st = body(st, x)], stopping at the first exception. *)
Fixpoint for_each {S A : Type} (body : S → A → option S) (xs : list A) (st : S)
    : option S :=
  match xs with
  | [] => Some st
  | x :: xs' => st' ← body st x; for_each body xs' st'
  end.

(** [range(n)] *)
Definition range (n : nat) : list nat := seq 0 n.

(** [l.index(x)]: the first position of [x], [ValueError] when absent. *)
Definition index (x : ascii) (l : list ascii) : option nat :=
  fst <$> list_find (x =.) l.

(** [d.get(k, default)] *)
Fixpoint dict_get {K V : Type} `{EqDecision K} (d : list (K * V)) (k : K)
    (default : V) : V :=
  match d with
  | [] => default
  | (k', v) :: d' => if decide (k = k') then v else dict_get d' k default
  end.

(** [d[k] = v]: an existing key keeps its place, a new key goes last. *)
Fixpoint dict_set {K V : Type} `{EqDecision K} (d : list (K * V)) (k : K)
    (v : V) : list (K * V) :=
  match d with
  | [] => [(k, v)]
  | (k', v') :: d' =>
      if decide (k = k') then (k, v) :: d' else (k', v') :: dict_set d' k v
  end.

(** [d.values()] *)
Definition dict_values {K V : Type} (d : list (K * V)) : list V := snd <$> d.

(** [math.log2(x)], [ValueError] unless [0 < x]. *)
Definition log2 (x : R) : option R :=
  if Rlt_dec 0 x then Some (ln x / ln 2)%R else None.

(** [sum(xs)] over integers *)
Definition sum (xs : list Z) : Z := foldr Z.add 0%Z xs.

(** [l.count(x)] *)
Definition count {A : Type} `{EqDecision A} (x : A) (l : list A) : Z :=
  Z.of_nat (length (filter (x =.) l)).

(** The ways of taking one element out of a list, each with what is left,
    in the order of the positions. *)
Fixpoint picks {A : Type} (pool : list A) : list (A * list A) :=
  match pool with
  | [] => []
  | x :: xs => (x, xs) :: ((λ p, (p.1, x :: p.2)) <$> picks xs)
  end.

(** [itertools.permutations(pool, r)]: the arrangements of [r] positions of
    [pool], in lexicographic order of the positions. *)
Fixpoint permutations {A : Type} (pool : list A) (r : nat) : list (list A) :=
  match r with
  | O => [[]]
  | S r' => p ← picks pool; (p.1 ::.) <$> permutations p.2 r'
  end.

(** [c.isdigit()] on a character below U+0100: the decimal digits and the
    superscripts two, three and one. *)
Definition char_isdigit (c : ascii) : bool :=
  let n := nat_of_ascii c in
  ((48 <=? n) && (n <=? 57)) || (n =? 178) || (n =? 179) || (n =? 185).

(** [s.isdigit()]: at least one character, and every character a digit. *)
Definition isdigit (s : string) : bool :=
  negb (String.length s =? 0)
  && forallb char_isdigit (list_ascii_of_string s).

End Py.

(** ** Bulls_and_Cows_Computer_Guessing.py *)

Module ComputerGuessing.
Import Py.

(** The local variables of [compute_feedback]. *)
Record fb_state := FbState {
  secret_digits : list ascii;
  guess_digits : list ascii;
  bulls : Z;
  cows : Z }.

(** Body of the first loop: count a bull and mark both positions. *)
Definition bulls_step (st : fb_state) (i : nat) : option fb_state :=
  g ← guess_digits st !! i;
  s ← secret_digits st !! i;
  if decide (g = s) then
    Some (FbState (<[i:="x"%char]> (secret_digits st))
                  (<[i:="y"%char]> (guess_digits st))
                  (bulls st + 1) (cows st))
  else Some st.

(** Body of the second loop: count a cow and mark the digit used in the
    secret. *)
Definition cows_step (st : fb_state) (i : nat) : option fb_state :=
  g ← guess_digits st !! i;
  if bool_decide (g ≠ "y"%char) && bool_decide (g ∈ secret_digits st) then
    j ← index g (secret_digits st);
    Some (FbState (<[j:="z"%char]> (secret_digits st)) (guess_digits st)
                  (bulls st) (cows st + 1))
  else Some st.

Definition compute_feedback (secret guess : string) : option (Z * Z) :=
  let st0 :=
    FbState (list_ascii_of_string secret) (list_ascii_of_string guess) 0 0 in
  st1 ← for_each bulls_step (range 4) st0;
  st2 ← for_each cows_step (range 4) st1;
  Some (bulls st2, cows st2).

(** Body of the loop of [filter_codes]. *)
Definition filter_step (guess : string) (bulls cows : Z)
    (filtered : list string) (code : string) : option (list string) :=
  '(b, c) ← compute_feedback code guess;
  if decide (b = bulls ∧ c = cows) then Some (filtered ++ [code])
  else Some filtered.

Definition filter_codes (possible_codes : list string) (guess : string)
    (bulls cows : Z) : option (list string) :=
  for_each (filter_step guess bulls cows) possible_codes [].

(** Body of the counting loop of [calculate_entropy]. *)
Definition count_step (guess : string) (feedback_counts : list (Z * Z * Z))
    (code : string) : option (list (Z * Z * Z)) :=
  feedback ← compute_feedback code guess;
  Some (dict_set feedback_counts feedback
          (dict_get feedback_counts feedback 0 + 1)%Z).

(** Body of the summing loop of [calculate_entropy]. *)
Definition entropy_step (total_codes : nat) (entropy : R) (count : Z)
    : option R :=
  let probability := (IZR count / INR total_codes)%R in
  l ← log2 probability;
  Some (entropy - probability * l)%R.

Definition calculate_entropy (possible_codes : list string) (guess : string)
    : option R :=
  let total_codes := length possible_codes in
  if decide (total_codes = 0) then Some 0%R
  else
    feedback_counts ← for_each (count_step guess) possible_codes [];
    for_each (entropy_step total_codes) (dict_values feedback_counts) 0%R.

(** The tolerance of the early exit, [1e-10]. *)
Definition tolerance : R := (/ 10 ^ 10)%R.

(** The loop of [find_best_guess]; [break] ends the recursion. *)
Fixpoint find_best_guess_loop (possible_codes : list string)
    (all_codes : list string) (max_entropy : R) (best_guess : string)
    : option (string * R) :=
  match all_codes with
  | [] => Some (best_guess, max_entropy)
  | guess :: rest =>
      entropy ← calculate_entropy possible_codes guess;
      let '(max_entropy, best_guess) :=
        if Rgt_dec entropy max_entropy then (entropy, guess)
        else (max_entropy, best_guess) in
      ceiling ← log2 (INR (length possible_codes));
      if Rlt_dec (Rabs (max_entropy - ceiling)) tolerance
      then Some (best_guess, max_entropy)
      else find_best_guess_loop possible_codes rest max_entropy best_guess
  end.

Definition find_best_guess (possible_codes all_codes : list string)
    : option (string * R) :=
  best_guess ← possible_codes !! 0;
  find_best_guess_loop possible_codes all_codes (-1)%R best_guess.

(** *** [filter_codes] on a store of list objects

    Python lists are mutable objects reached through references.  Here a
    store maps a reference to the current contents of its list;
    [filter_codes] receives the reference of [possible_codes], allocates
    [filtered], appends to it and returns its reference.  The [for] loop
    reads the list behind [possible_codes] again at every iteration, as the
    list iterator of Python does, so the loop takes fuel. *)

Definition ref := positive.
Abbreviation store := (gmap ref (list string)).

Inductive result (A : Type) :=
  | Returns (a : A)
  | Raises
  | OutOfFuel.
Arguments Returns {A} a.
Arguments Raises {A}.
Arguments OutOfFuel {A}.

Fixpoint filter_loop (fuel : nat) (possible_codes filtered : ref)
    (guess : string) (bulls cows : Z) (i : nat) (σ : store) : result store :=
  match fuel with
  | O => OutOfFuel
  | S fuel' =>
      match σ !! possible_codes with
      | None => Raises
      | Some codes =>
          match codes !! i with
          | None => Returns σ
          | Some code =>
              match compute_feedback code guess with
              | None => Raises
              | Some (b, c) =>
                  let σ' :=
                    if decide (b = bulls ∧ c = cows)
                    then alter (λ l, l ++ [code]) filtered σ
                    else σ in
                  filter_loop fuel' possible_codes filtered guess bulls cows
                    (S i) σ'
              end
          end
      end
  end.

Definition filter_codes_store (fuel : nat) (possible_codes : ref)
    (guess : string) (bulls cows : Z) (σ : store) : result (ref * store) :=
  let filtered := fresh (dom σ) in
  match filter_loop fuel possible_codes filtered guess bulls cows 0
          (<[filtered:=[]]> σ) with
  | Returns σ' => Returns (filtered, σ')
  | Raises => Raises
  | OutOfFuel => OutOfFuel
  end.

(** *** [main]

    The game reads lines and prints; here a line is what its parsing amounts
    to, and a run returns the exchanges (attempt number, guess shown, line
    read) with the way the game ended.  The outer loop of [main] starts with
    [find_best_guess] and its inner loop reads until a line is accepted:
    [feedback_loop] is the inner loop followed by the rest of the outer one,
    and it goes back to itself through the next [find_best_guess].  [play]
    is [main] from its second statement on, for the list [all_codes] that
    the first statement builds.  The lines that [main] prints besides its
    guesses are left out. *)

(** A line of input after [.strip().lower()]: the word [win], two integers,
    or anything else, on which the parsing raises the [ValueError] that the
    loop catches. *)
Inductive reply :=
  | Win
  | Feedback (bulls cows : Z)
  | Unparsable.

Inductive ending :=
  | ComputerWon (attempts : Z)
  | NoCodesRemain
  | OnlyOne (code : string)
  | EndOfInput
  | Raised.

(** [0 <= bulls <= 4 and 0 <= cows <= 4 and bulls + cows <= 4] *)
Definition valid_feedback (bulls cows : Z) : bool :=
  bool_decide (0 ≤ bulls ≤ 4)%Z && bool_decide (0 ≤ cows ≤ 4)%Z
  && bool_decide (bulls + cows ≤ 4)%Z.

Fixpoint feedback_loop (all_codes : list string) (inputs : list reply)
    (possible_codes : list string) (attempts : Z) (guess : string)
    : list (Z * string * reply) * ending :=
  match inputs with
  | [] => ([], EndOfInput)
  | line :: rest =>
      let '(exchanges, e) :=
        match line with
        | Win => ([], ComputerWon attempts)
        | Unparsable =>
            feedback_loop all_codes rest possible_codes attempts guess
        | Feedback bulls cows =>
            if valid_feedback bulls cows then
              match filter_codes possible_codes guess bulls cows with
              | None => ([], Raised)
              | Some [] => ([], NoCodesRemain)
              | Some [code] => ([], OnlyOne code)
              | Some possible_codes' =>
                  match find_best_guess possible_codes' all_codes with
                  | None => ([], Raised)
                  | Some (guess', _) =>
                      feedback_loop all_codes rest possible_codes'
                        (attempts + 1) guess'
                  end
              end
            else feedback_loop all_codes rest possible_codes attempts guess
        end in
      ((attempts, guess, line) :: exchanges, e)
  end.

Definition play (all_codes : list string) (inputs : list reply)
    : list (Z * string * reply) * ending :=
  match find_best_guess all_codes all_codes with
  | None => ([], Raised)
  | Some (guess, _) => feedback_loop all_codes inputs all_codes 1 guess
  end.

(** [[''.join(p) for p in itertools.permutations('0123456789', 4)]] *)
Definition all_codes : list string :=
  string_of_list_ascii <$> permutations (list_ascii_of_string "0123456789") 4.

Definition main (inputs : list reply) : list (Z * string * reply) * ending :=
  play all_codes inputs.

End ComputerGuessing.

(** ** Bulls_and_Cows_User_Guessing.py *)

Module UserGuessing.
Import Py.

(** [set(guess)] is a finite set; the sum over it does not depend on the
    order of iteration. *)
Definition compute_feedback (secret guess : string) : Z * Z :=
  let s := list_ascii_of_string secret in
  let g := list_ascii_of_string guess in
  let bulls :=
    sum ((λ sg, if decide (sg.1 = sg.2) then 1%Z else 0%Z) <$> zip s g) in
  let common :=
    sum ((λ d, Z.min (count d s) (count d g))
           <$> elements (list_to_set g : gset ascii)) in
  let cows := (common - bulls)%Z in
  (bulls, cows).

(** Floats are real numbers here as well. *)
Definition calculate_current_entropy (bulls cows : Z) : option R :=
  l ← log2 10;
  let base_entropy := (4 * l)%R in
  let position_certainty := (IZR bulls / 4)%R in
  let digit_certainty := (IZR cows / 8)%R in
  let remaining_uncertainty :=
    (1 - (position_certainty + digit_certainty))%R in
  let current_entropy := (base_entropy * remaining_uncertainty)%R in
  Some current_entropy.

Definition is_valid_guess (guess : string) : bool :=
  (String.length guess =? 4)
  && isdigit guess
  && (size (list_to_set (list_ascii_of_string guess) : gset ascii) =? 4).

(** *** [main]

    [secret_code] is what [random.choice(all_codes)] returned and a line of
    input is the line after [.strip().lower()].  A run returns the guesses
    that were scored (attempt number, guess, feedback, entropy shown) with
    the way the game ended; [guess_loop] is the inner loop that reads until
    a guess is valid, followed by the rest of the outer loop. *)

Inductive ending :=
  | Quit
  | Won (attempts : Z)
  | TooManyAttempts
  | EndOfInput
  | Raised.

Fixpoint guess_loop (secret_code : string) (inputs : list string)
    (attempts : Z) : list (Z * string * (Z * Z) * R) * ending :=
  match inputs with
  | [] => ([], EndOfInput)
  | guess :: rest =>
      if decide (guess = "quit"%string) then ([], Quit)
      else if is_valid_guess guess then
        let '(bulls, cows) := compute_feedback secret_code guess in
        match calculate_current_entropy bulls cows with
        | None => ([], Raised)
        | Some current_entropy =>
            let '(scored, e) :=
              if decide (bulls = 4%Z) then ([], Won attempts)
              else if decide (20 ≤ attempts)%Z then ([], TooManyAttempts)
              else guess_loop secret_code rest (attempts + 1) in
            ((attempts, guess, (bulls, cows), current_entropy) :: scored, e)
        end
      else guess_loop secret_code rest attempts
  end.

Definition main (secret_code : string) (inputs : list string)
    : list (Z * string * (Z * Z) * R) * ending :=
  guess_loop secret_code inputs 1.

End UserGuessing.

(** ** The selector without its early exit

    [find_best_guess] with the two lines of the early-exit test removed: the
    variant that the selector is compared with. *)

Module NoEarlyExit.
Import Py ComputerGuessing.

Fixpoint find_best_guess_loop (possible_codes : list string)
    (all_codes : list string) (max_entropy : R) (best_guess : string)
    : option (string * R) :=
  match all_codes with
  | [] => Some (best_guess, max_entropy)
  | guess :: rest =>
      entropy ← calculate_entropy possible_codes guess;
      let '(max_entropy, best_guess) :=
        if Rgt_dec entropy max_entropy then (entropy, guess)
        else (max_entropy, best_guess) in
      find_best_guess_loop possible_codes rest max_entropy best_guess
  end.

Definition find_best_guess (possible_codes all_codes : list string)
    : option (string * R) :=
  best_guess ← possible_codes !! 0;
  find_best_guess_loop possible_codes all_codes (-1)%R best_guess.

End NoEarlyExit.

(** ** Vocabulary of the statements *)

Import Py.

(** A string long enough for the four index accesses of the scorer. *)
Definition indexable (s : string) : Prop := 4 ≤ String.length s.

Definition is_digit (c : ascii) : bool :=
  (48 <=? nat_of_ascii c) && (nat_of_ascii c <=? 57).

(** A 4-character digit string; repeated digits are allowed. *)
Definition digits4 (s : string) : Prop :=
  String.length s = 4 ∧ Forall (λ c, is_digit c = true) (list_ascii_of_string s).

(** ** The two passes of the scorer as list recursions

    The loops of [compute_feedback] address the digits by index; on the
    digits they visit they compute the following recursions, which the
    proofs below work with. *)

(** The bulls pass over two lists of the same length. *)
Fixpoint mark_bulls (s g : list ascii) : list ascii * list ascii * Z :=
  match s, g with
  | a :: s', b :: g' =>
      let '(s'', g'', n) := mark_bulls s' g' in
      if decide (b = a) then ("x"%char :: s'', "y"%char :: g'', n + 1)%Z
      else (a :: s'', b :: g'', n)
  | _, _ => (s, g, 0%Z)
  end.

(** [sd[sd.index(c)] = 'z'] *)
Fixpoint mark_first (c : ascii) (sd : list ascii) : list ascii :=
  match sd with
  | [] => []
  | a :: sd' => if decide (c = a) then "z"%char :: sd' else a :: mark_first c sd'
  end.

(** The cows pass over the guess digits [g] against the secret [sd]. *)
Fixpoint count_cows (g sd : list ascii) : Z :=
  match g with
  | [] => 0
  | c :: g' =>
      if bool_decide (c ≠ "y"%char) && bool_decide (c ∈ sd)
      then (count_cows g' (mark_first c sd) + 1)%Z
      else count_cows g' sd
  end.

(** The bulls pass followed by the cows pass. *)
Definition score (s g : list ascii) : Z * Z :=
  let '(s', g', n) := mark_bulls (take 4 s) (take 4 g) in
  (n, count_cows g' (s' ++ drop 4 s)).

(** The characters at the positions of the bulls. *)
Fixpoint bull_chars (s g : list ascii) : list ascii :=
  match s, g with
  | a :: s', b :: g' =>
      if decide (b = a) then a :: bull_chars s' g' else bull_chars s' g'
  | _, _ => []
  end.

(** A guess position that the bulls pass has not marked. *)
Definition not_y (c : ascii) : Prop := c ≠ "y"%char.

#[local] Instance not_y_dec c : Decision (not_y c).
Proof. unfold not_y. apply _. Defined.

(** A character that is none of the marks ['x'], ['y'] and ['z']. *)
Definition plain (c : ascii) : Prop :=
  c ≠ "x"%char ∧ c ≠ "y"%char ∧ c ≠ "z"%char.

(** The counting loop of [calculate_entropy], run on the feedbacks. *)
Definition tally_step (d : list (Z * Z * Z)) (fb : Z * Z) : list (Z * Z * Z) :=
  dict_set d fb (dict_get d fb 0 + 1)%Z.

Definition tally (fbs : list (Z * Z)) : list (Z * Z * Z) :=
  foldl tally_step [] fbs.

(** The feedback of every candidate against [guess]. *)
Definition feedbacks (possible_codes : list string) (guess : string)
    : list (Z * Z) :=
  (λ code, score (list_ascii_of_string code) (list_ascii_of_string guess))
    <$> possible_codes.

(** The fifteen pairs within the bounds of a feedback. *)
Definition feedback_range : list (Z * Z) :=
  [(0, 0); (0, 1); (0, 2); (0, 3); (0, 4);
   (1, 0); (1, 1); (1, 2); (1, 3);
   (2, 0); (2, 1); (2, 2);
   (3, 0); (3, 1);
   (4, 0)]%Z.

(** [sum(xs)] over real numbers, and [v * log2(v)]. *)
Definition Rsum (xs : list R) : R := foldr Rplus 0%R xs.

Definition plog2 (v : Z) : R := (IZR v * (ln (IZR v) / ln 2))%R.

(** The ceiling of the early exit, [log2(len(possible_codes))]. *)
Definition entropy_ceiling (possible_codes : list string) : R :=
  (ln (INR (length possible_codes)) / ln 2)%R.

(** The value that [calculate_entropy] computes on a non-empty list of
    candidates: [log2 n] less the mean of [v * log2 v] over the counts. *)
Definition entropy_value (possible_codes : list string) (guess : string) : R :=
  (entropy_ceiling possible_codes
   - Rsum (plog2 <$> dict_values (tally (feedbacks possible_codes guess)))
     / INR (length possible_codes))%R.

(** [code] is consistent with the feedback [(bulls, cows)] of [guess]. *)
Definition consistent (guess : string) (bulls cows : Z) (code : string) : Prop :=
  ComputerGuessing.compute_feedback code guess = Some (bulls, cows).

#[local] Instance consistent_dec guess bulls cows code :
  Decision (consistent guess bulls cows code).
Proof. unfold consistent. apply _. Defined.

(** [guess], at position [k] of [all_codes], has the greatest entropy, and
    every guess before it has a smaller one. *)
Definition first_maximizer (possible_codes all_codes : list string) (k : nat)
    (guess : string) (entropy : R) : Prop :=
  all_codes !! k = Some guess ∧
  ComputerGuessing.calculate_entropy possible_codes guess = Some entropy ∧
  ∀ j g e,
    all_codes !! j = Some g →
    ComputerGuessing.calculate_entropy possible_codes g = Some e →
    (e <= entropy)%R ∧ (j < k → (e < entropy)%R).

(** No two entries of the candidate list have the same feedback. *)
Definition distinct_feedbacks (possible_codes : list string) (guess : string)
    : Prop :=
  ∀ i j code code',
    possible_codes !! i = Some code → possible_codes !! j = Some code' →
    ComputerGuessing.compute_feedback code guess
    = ComputerGuessing.compute_feedback code' guess →
    i = j.

(** The scorer is injective on the codes of the candidate list. *)
Definition injective_feedback (possible_codes : list string) (guess : string)
    : Prop :=
  ∀ code code',
    code ∈ possible_codes → code' ∈ possible_codes →
    ComputerGuessing.compute_feedback code guess
    = ComputerGuessing.compute_feedback code' guess →
    code = code'.

(** The state at the head of the inner loop of [main]: the candidates are at
    least two codes of the list [codes], in its order, and the guess is the
    one that [find_best_guess] chose for them. *)
Definition game_state (codes possible_codes : list string) (guess : string)
    : Prop :=
  possible_codes `sublist_of` codes ∧
  2 ≤ length possible_codes ∧
  ∃ e, ComputerGuessing.find_best_guess possible_codes codes = Some (guess, e).

(** A line that is true of [secret] for the guess it answers: [win] only
    for the secret itself, a feedback only when it is the scorer's. *)
Definition honest (secret : string)
    (exchange : Z * string * ComputerGuessing.reply) : Prop :=
  match exchange.2 with
  | ComputerGuessing.Win => exchange.1.2 = secret
  | ComputerGuessing.Feedback bulls cows =>
      ComputerGuessing.compute_feedback secret exchange.1.2
      = Some (bulls, cows)
  | ComputerGuessing.Unparsable => True
  end.

(** The game found [secret], or the input ended before it could. *)
Definition found (secret : string)
    (run : list (Z * string * ComputerGuessing.reply) * ComputerGuessing.ending)
    : Prop :=
  match run.2 with
  | ComputerGuessing.ComputerWon attempts =>
      ∃ before, run.1 = before ++ [(attempts, secret, ComputerGuessing.Win)]
  | ComputerGuessing.OnlyOne code => code = secret
  | ComputerGuessing.EndOfInput => True
  | ComputerGuessing.NoCodesRemain | ComputerGuessing.Raised => False
  end.

(** A run of the user-guessing game is won by the secret and by nothing
    else: it ends as won exactly on a scored guess that is the secret, the
    last one scored, and it never raises. *)
Definition won_by_secret (secret : string)
    (run : list (Z * string * (Z * Z) * R) * UserGuessing.ending) : Prop :=
  match run.2 with
  | UserGuessing.Won attempts =>
      ∃ before fb e,
        run.1 = before ++ [(attempts, secret, fb, e)] ∧
        Forall (λ x, x.1.1.2 ≠ secret) before
  | UserGuessing.Raised => False
  | _ => Forall (λ x, x.1.1.2 ≠ secret) run.1
  end.

(** ** The documented examples *)

Example compute_feedback_doc :
  ComputerGuessing.compute_feedback "1234" "1432" = Some (2, 2)%Z.
Proof. reflexivity. Qed.

Example compute_feedback_user_doc :
  UserGuessing.compute_feedback "1234" "1432" = (2, 2)%Z.
Proof. vm_compute. reflexivity. Qed.

Example compute_feedback_short :
  ComputerGuessing.compute_feedback "1234" "143" = None.
Proof. reflexivity. Qed.

Example filter_codes_doc :
  ComputerGuessing.filter_codes ["1234"; "1243"; "4321"; "1432"] "1432" 2 2
  = Some ["1234"].
Proof. reflexivity. Qed.


(** ** The scorer *)

Section Scorer.
Import ComputerGuessing.

Lemma length_list_ascii_of_string s :
  length (list_ascii_of_string s) = String.length s.
Proof. induction s; simpl; congruence. Qed.

Lemma index_mark_first c sd :
  c ∈ sd → ∃ j, index c sd = Some j ∧ <[j:="z"%char]> sd = mark_first c sd.
Proof.
  unfold index. induction sd as [|a sd IH]; intros Hin.
  - by apply elem_of_nil in Hin.
  - simpl. destruct (decide (c = a)) as [->|Hne].
    + by exists 0.
    + apply elem_of_cons in Hin as [?|Hin]; [done|].
      destruct (IH Hin) as (j & Hj & Hins).
      exists (Datatypes.S j).
      destruct (list_find _ sd) as [[j' y]|]; simplify_eq/=.
      by rewrite Hins.
Qed.

Lemma bulls_step_at pre_s pre_g a e rest_s rest_g b c :
  length pre_s = length pre_g →
  bulls_step (FbState (pre_s ++ a :: rest_s) (pre_g ++ e :: rest_g) b c)
    (length pre_s)
  = Some (if decide (e = a)
          then FbState (pre_s ++ "x"%char :: rest_s)
                       (pre_g ++ "y"%char :: rest_g) (b + 1) c
          else FbState (pre_s ++ a :: rest_s) (pre_g ++ e :: rest_g) b c).
Proof.
  intros Hpre. unfold bulls_step. cbn [guess_digits secret_digits bulls cows].
  rewrite Hpre at 1. rewrite !list_lookup_middle by done. simpl.
  destruct (decide (e = a)); [|done].
  rewrite (insert_app_r_alt pre_s), (insert_app_r_alt pre_g) by lia.
  by rewrite Hpre, Nat.sub_diag.
Qed.

Lemma cows_step_at pre e post sd b c :
  cows_step (FbState sd (pre ++ e :: post) b c) (length pre)
  = Some (if bool_decide (e ≠ "y"%char) && bool_decide (e ∈ sd)
          then FbState (mark_first e sd) (pre ++ e :: post) b (c + 1)
          else FbState sd (pre ++ e :: post) b c).
Proof.
  unfold cows_step. cbn [guess_digits secret_digits bulls cows].
  rewrite list_lookup_middle by done. simpl.
  destruct (bool_decide (e ≠ "y"%char)); [|done].
  destruct (bool_decide (e ∈ sd)) eqn:Hin; [|done]. simpl.
  apply bool_decide_eq_true in Hin.
  destruct (index_mark_first e sd Hin) as (j & -> & <-). done.
Qed.

Lemma snoc_shift {X} (pre : list X) (x : X) (l : list X) :
  pre ++ x :: l = (pre ++ [x]) ++ l.
Proof. by rewrite <- (assoc_L (++)). Qed.

Lemma bulls_loop s : ∀ g pre_s pre_g post_s post_g b c,
  length pre_s = length pre_g →
  length s = length g →
  for_each bulls_step (seq (length pre_s) (length s))
    (FbState (pre_s ++ s ++ post_s) (pre_g ++ g ++ post_g) b c)
  = Some (FbState (pre_s ++ (mark_bulls s g).1.1 ++ post_s)
                  (pre_g ++ (mark_bulls s g).1.2 ++ post_g)
                  (b + (mark_bulls s g).2) c).
Proof.
  induction s as [|a s IH]; intros [|e g] pre_s pre_g post_s post_g b c Hpre Hlen;
    try discriminate Hlen.
  - simpl. by rewrite Z.add_0_r.
  - injection Hlen as Hlen.
    cbn [length seq for_each mark_bulls app].
    rewrite bulls_step_at by done. cbn [mbind option_bind].
    assert (∀ (u v : ascii), length (pre_s ++ [u]) = length (pre_g ++ [v])) as Hpre'.
    { intros. rewrite !length_app. simpl. lia. }
    assert (∀ u : ascii, Datatypes.S (length pre_s) = length (pre_s ++ [u])) as HS.
    { intros. rewrite length_app. simpl. lia. }
    specialize (IH g). destruct (mark_bulls s g) as [[s' g'] n] eqn:Hmb.
    destruct (decide (e = a)) as [->|Hne]; cbn [fst snd].
    + rewrite (snoc_shift pre_s), (snoc_shift pre_g), (HS "x"%char).
      rewrite IH by done. cbn [fst snd].
      rewrite <- !snoc_shift. do 2 f_equal. lia.
    + rewrite (snoc_shift pre_s), (snoc_shift pre_g), (HS a).
      rewrite IH by done. cbn [fst snd].
      by rewrite <- !snoc_shift.
Qed.

Lemma cows_loop g : ∀ pre post sd b c,
  ∃ sd', for_each cows_step (seq (length pre) (length g))
           (FbState sd (pre ++ g ++ post) b c)
         = Some (FbState sd' (pre ++ g ++ post) b (c + count_cows g sd)).
Proof.
  induction g as [|e g IH]; intros pre post sd b c.
  - exists sd. simpl. by rewrite Z.add_0_r.
  - cbn [length seq for_each count_cows app].
    rewrite cows_step_at. cbn [mbind option_bind].
    rewrite (snoc_shift pre e (g ++ post)).
    assert (Datatypes.S (length pre) = length (pre ++ [e])) as ->.
    { rewrite length_app. simpl. lia. }
    destruct (bool_decide (e ≠ "y"%char) && bool_decide (e ∈ sd)).
    + destruct (IH (pre ++ [e]) post (mark_first e sd) b (c + 1)%Z) as [sd' ->].
      exists sd'. do 2 f_equal. lia.
    + apply IH.
Qed.

Lemma mark_bulls_length s : ∀ g,
  length (mark_bulls s g).1.1 = length s ∧
  length (mark_bulls s g).1.2 = length g.
Proof.
  induction s as [|a s IH]; intros [|e g]; simpl; try done.
  specialize (IH g). destruct (mark_bulls s g) as [[s' g'] n].
  destruct (decide (e = a)); simpl in *; lia.
Qed.

(** On strings of at least four characters the scorer returns, and what it
    returns is the list recursion [score]. *)
Lemma compute_feedback_score secret guess :
  indexable secret → indexable guess →
  compute_feedback secret guess
  = Some (score (list_ascii_of_string secret) (list_ascii_of_string guess)).
Proof.
  unfold indexable, compute_feedback, score, range.
  rewrite <- !length_list_ascii_of_string.
  generalize (list_ascii_of_string secret) (list_ascii_of_string guess).
  intros s g Hs Hg.
  pose proof (bulls_loop (take 4 s) (take 4 g) [] [] (drop 4 s) (drop 4 g)
                0 0 eq_refl) as Hb.
  rewrite !length_take, !take_drop in Hb. cbn [app length] in Hb.
  replace (4 `min` length s) with 4 in Hb by lia.
  replace (4 `min` length g) with 4 in Hb by lia.
  rewrite Hb by done. clear Hb. cbn [mbind option_bind].
  pose proof (mark_bulls_length (take 4 s) (take 4 g)) as [_ Hg'].
  rewrite length_take in Hg'. replace (4 `min` length g) with 4 in Hg' by lia.
  destruct (mark_bulls (take 4 s) (take 4 g)) as [[s' g'] n]. cbn [fst snd] in *.
  destruct (cows_loop g' [] (drop 4 g) (s' ++ drop 4 s) (0 + n) 0) as [sd' Hc].
  rewrite Hg' in Hc. cbn [app length] in Hc. rewrite Hc. simpl. done.
Qed.
(** *** Bounds *)

Lemma mark_bulls_bound s : ∀ g,
  (0 ≤ (mark_bulls s g).2)%Z ∧
  ((mark_bulls s g).2 + Z.of_nat (length (filter not_y (mark_bulls s g).1.2))
   ≤ Z.of_nat (length g))%Z.
Proof.
  induction s as [|a s IH]; intros g.
  - simpl. pose proof (length_filter not_y g). lia.
  - destruct g as [|e g]; [simpl; lia|].
    simpl. specialize (IH g). destruct (mark_bulls s g) as [[s' g'] n].
    destruct (decide (e = a)); simpl in *.
    + rewrite filter_cons_False by (intros Hy; by apply Hy). lia.
    + destruct (decide (not_y e)).
      * rewrite filter_cons_True by done. simpl. lia.
      * rewrite filter_cons_False by done. lia.
Qed.

Lemma count_cows_bound g : ∀ sd,
  (0 ≤ count_cows g sd ≤ Z.of_nat (length (filter not_y g)))%Z.
Proof.
  induction g as [|e g IH]; intros sd; simpl; [done|].
  destruct (decide (not_y e)) as [Hy|Hy].
  - rewrite filter_cons_True by done. simpl.
    pose proof (IH (mark_first e sd)). pose proof (IH sd).
    destruct (_ && _); lia.
  - rewrite filter_cons_False by done.
    rewrite (bool_decide_eq_false_2 (e ≠ "y"%char)) by done. simpl. apply IH.
Qed.

Lemma score_bound s g :
  (0 ≤ (score s g).1 ≤ 4 ∧ 0 ≤ (score s g).2 ≤ 4 ∧
   (score s g).1 + (score s g).2 ≤ 4)%Z.
Proof.
  unfold score.
  pose proof (mark_bulls_bound (take 4 s) (take 4 g)) as [Hn Hb].
  assert (length (take 4 g) ≤ 4) as Hlen by (rewrite length_take; lia).
  destruct (mark_bulls (take 4 s) (take 4 g)) as [[s' g'] n]. cbn [fst snd] in *.
  pose proof (count_cows_bound g' (s' ++ drop 4 s)). lia.
Qed.

(** The feedback of two strings of at least four characters is within the
    bounds, whatever the characters are. *)
Lemma compute_feedback_bound secret guess b c :
  compute_feedback secret guess = Some (b, c) →
  indexable secret → indexable guess →
  (0 ≤ b ≤ 4 ∧ 0 ≤ c ≤ 4 ∧ b + c ≤ 4)%Z.
Proof.
  intros Hfb Hs Hg. rewrite compute_feedback_score in Hfb by done.
  injection Hfb as Hfb.
  pose proof (score_bound (list_ascii_of_string secret)
                (list_ascii_of_string guess)) as H.
  by rewrite Hfb in H.
Qed.

(** *** Self-match *)

Lemma mark_bulls_self s :
  mark_bulls s s
  = (replicate (length s) "x"%char, replicate (length s) "y"%char,
     Z.of_nat (length s)).
Proof.
  induction s as [|a s IH]; [done|].
  cbn [mark_bulls length replicate]. rewrite IH, decide_True by done.
  do 2 f_equal. lia.
Qed.

Lemma count_cows_marked n sd : count_cows (replicate n "y"%char) sd = 0%Z.
Proof. induction n as [|n IH]; [done|]. simpl. apply IH. Qed.

Lemma score_self s : 4 ≤ length s → score s s = (4, 0)%Z.
Proof.
  intros Hs. unfold score. rewrite mark_bulls_self, count_cows_marked.
  rewrite length_take. by replace (4 `min` length s) with 4 by lia.
Qed.

Lemma digits4_indexable s : digits4 s → indexable s.
Proof. intros [Hlen _]. unfold indexable. lia. Qed.
End Scorer.

(** ** Scoring by marking and scoring by counting *)

Section Counting.
Import ComputerGuessing.

Lemma is_digit_plain c : is_digit c = true → plain c.
Proof.
  intros Hd. repeat split; intros ->; vm_compute in Hd; discriminate.
Qed.

Lemma count_nil {A} `{EqDecision A} (d : A) : count d [] = 0%Z.
Proof. done. Qed.

Lemma count_cons {A} `{EqDecision A} (d a : A) l :
  count d (a :: l) = ((if decide (d = a) then 1 else 0) + count d l)%Z.
Proof.
  unfold count. destruct (decide (d = a)).
  - rewrite filter_cons_True by done. simpl. lia.
  - rewrite filter_cons_False by done. lia.
Qed.

Lemma count_nonneg {A} `{EqDecision A} (d : A) l : (0 ≤ count d l)%Z.
Proof. unfold count. lia. Qed.

Lemma count_not_elem_of {A} `{EqDecision A} (d : A) l :
  d ∉ l → count d l = 0%Z.
Proof.
  induction l as [|a l IH]; intros Hd; [done|].
  apply not_elem_of_cons in Hd as [? ?].
  rewrite count_cons, decide_False, IH by done. done.
Qed.

Lemma count_elem_of {A} `{EqDecision A} (d : A) l :
  d ∈ l → (1 ≤ count d l)%Z.
Proof.
  induction l as [|a l IH]; intros Hd; [by apply elem_of_nil in Hd|].
  rewrite count_cons. pose proof (count_nonneg d l).
  destruct (decide (d = a)); [lia|].
  apply elem_of_cons in Hd as [?|Hd]; [done|]. specialize (IH Hd). lia.
Qed.

Lemma sum_cons x xs : sum (x :: xs) = (x + sum xs)%Z.
Proof. done. Qed.

Lemma sum_fmap_ext (f f' : ascii → Z) ds :
  (∀ d, d ∈ ds → f d = f' d) → sum (f <$> ds) = sum (f' <$> ds).
Proof.
  induction ds as [|d ds IH]; intros Hf; [done|].
  rewrite !fmap_cons, !sum_cons, IH, Hf; [done|set_solver|].
  intros d' Hd'. apply Hf. set_solver.
Qed.

Lemma sum_fmap_add (f f' : ascii → Z) ds :
  sum ((λ d, f d + f' d)%Z <$> ds) = (sum (f <$> ds) + sum (f' <$> ds))%Z.
Proof.
  induction ds as [|d ds IH]; [done|].
  rewrite !fmap_cons, !sum_cons, IH. lia.
Qed.

(** Two functions that differ at one element of a duplicate-free list. *)
Lemma sum_fmap_shift (f f' : ascii → Z) ds e δ :
  NoDup ds → e ∈ ds →
  (∀ d, d ∈ ds → d ≠ e → f d = f' d) →
  f e = (f' e + δ)%Z →
  sum (f <$> ds) = (sum (f' <$> ds) + δ)%Z.
Proof.
  intros Hnd He Hf Hfe. induction Hnd as [|d ds Hd Hnd IH].
  - by apply elem_of_nil in He.
  - rewrite !fmap_cons, !sum_cons.
    destruct (decide (d = e)) as [->|Hne].
    + rewrite Hfe, (sum_fmap_ext f f' ds); [lia|].
      intros d Hin. apply Hf; [by right|]. by intros ->.
    + apply elem_of_cons in He as [?|He]; [done|].
      rewrite IH, Hf; [lia|by left|done|done|].
      intros d' Hd' ?. apply Hf; [by right|done].
Qed.

Lemma sum_fmap_const_0 ds : sum ((λ _ : ascii, 0%Z) <$> ds) = 0%Z.
Proof. induction ds as [|d ds IH]; [done|]. by rewrite fmap_cons, sum_cons, IH. Qed.

Lemma sum_count_length (ds l : list ascii) :
  NoDup ds → (∀ e, e ∈ l → e ∈ ds) →
  sum ((λ d, count d l) <$> ds) = Z.of_nat (length l).
Proof.
  intros Hnd. induction l as [|a l IH]; intros Hl.
  - apply sum_fmap_const_0.
  - rewrite (sum_fmap_shift _ (λ d, count d l) ds a 1 Hnd).
    + rewrite IH by set_solver. simpl. lia.
    + apply Hl. set_solver.
    + intros d _ Hne. by rewrite count_cons, decide_False.
    + rewrite count_cons, decide_True by done. lia.
Qed.

(** *** The bulls *)

Lemma mark_bulls_zip s : ∀ g,
  length s = length g →
  (mark_bulls s g).2
  = sum ((λ sg, if decide (sg.1 = sg.2) then 1%Z else 0%Z) <$> zip s g).
Proof.
  induction s as [|a s IH]; intros [|e g] Hlen; try done.
  injection Hlen as Hlen. specialize (IH g Hlen).
  cbn [mark_bulls zip zip_with]. rewrite fmap_cons, sum_cons, <- IH.
  destruct (mark_bulls s g) as [[s' g'] n].
  destruct (decide (e = a)) as [->|Hne]; cbn [fst snd].
  - rewrite decide_True by done. lia.
  - rewrite decide_False by done. lia.
Qed.

Lemma bull_chars_length s : ∀ g,
  Z.of_nat (length (bull_chars s g)) = (mark_bulls s g).2.
Proof.
  induction s as [|a s IH]; intros [|e g]; try done.
  simpl. specialize (IH g). destruct (mark_bulls s g) as [[s' g'] n].
  destruct (decide (e = a)); simpl in *; lia.
Qed.

Lemma bull_chars_guess s : ∀ g e, e ∈ bull_chars s g → e ∈ g.
Proof.
  induction s as [|a s IH]; intros [|b g] e; simpl; try (by intros ?%elem_of_nil).
  destruct (decide (b = a)) as [->|Hne]; intros He.
  - apply elem_of_cons in He as [->|He]; [left|right; by apply IH].
  - right. by apply IH.
Qed.

Lemma count_secret_split d s : ∀ g,
  d ≠ "x"%char →
  count d s = (count d (bull_chars s g) + count d (mark_bulls s g).1.1)%Z.
Proof.
  intros g Hd. revert g. induction s as [|a s IH]; intros [|e g]; try done.
  simpl. specialize (IH g). destruct (mark_bulls s g) as [[s' g'] n].
  destruct (decide (e = a)) as [->|Hne]; simpl in *.
  - rewrite !count_cons, IH, (decide_False (P := d = "x"%char)) by done. lia.
  - rewrite !count_cons, IH. lia.
Qed.

Lemma count_guess_split d s : ∀ g,
  d ≠ "y"%char →
  count d g = (count d (bull_chars s g) + count d (mark_bulls s g).1.2)%Z.
Proof.
  intros g Hd. revert g. induction s as [|a s IH]; intros [|e g]; try done.
  simpl. specialize (IH g). destruct (mark_bulls s g) as [[s' g'] n].
  destruct (decide (e = a)) as [->|Hne]; simpl in *.
  - rewrite !count_cons, IH, (decide_False (P := d = "y"%char)) by done. lia.
  - rewrite !count_cons, IH. lia.
Qed.
(** *** The cows *)

Lemma count_mark_first_ne d e sd :
  d ≠ e → d ≠ "z"%char → count d (mark_first e sd) = count d sd.
Proof.
  intros Hne Hz. induction sd as [|a sd IH]; [done|]. simpl.
  destruct (decide (e = a)) as [<-|Hea].
  - by rewrite !count_cons, !decide_False.
  - by rewrite !count_cons, IH.
Qed.

Lemma count_mark_first_eq e sd :
  e ≠ "z"%char → e ∈ sd → count e (mark_first e sd) = (count e sd - 1)%Z.
Proof.
  intros Hz. induction sd as [|a sd IH]; intros He.
  - by apply elem_of_nil in He.
  - simpl. destruct (decide (e = a)) as [<-|Hea].
    + rewrite !count_cons, decide_False, decide_True by done. lia.
    + apply elem_of_cons in He as [?|He]; [done|].
      rewrite !count_cons, IH by done. lia.
Qed.

(** The cows pass counts, digit by digit, the smaller of the number of
    occurrences left in the secret and in the guess. *)
Lemma count_cows_sum ds gl : ∀ sd,
  NoDup ds →
  (∀ d, d ∈ ds → d ≠ "y"%char ∧ d ≠ "z"%char) →
  (∀ e, e ∈ gl → e = "y"%char ∨ e ∈ ds) →
  sum ((λ d, Z.min (count d sd) (count d gl)) <$> ds) = count_cows gl sd.
Proof.
  intros sd Hnd Hds. revert sd. induction gl as [|e gl IH]; intros sd Hgl.
  - cbn [count_cows]. rewrite <- (sum_fmap_const_0 ds).
    apply sum_fmap_ext. intros d _.
    pose proof (count_nonneg d sd). rewrite count_nil. lia.
  - assert (∀ e', e' ∈ gl → e' = "y"%char ∨ e' ∈ ds) as Hgl'.
    { intros e' He'. apply Hgl. by right. }
    cbn [count_cows].
    destruct (decide (e = "y"%char)) as [->|Hy].
    + rewrite (bool_decide_eq_false_2 ("y"%char ≠ "y"%char)) by (intros H; by apply H).
      cbn [andb]. rewrite <- IH by done. apply sum_fmap_ext. intros d Hd.
      destruct (Hds d Hd) as [Hdy _]. by rewrite count_cons, decide_False.
    + rewrite (bool_decide_eq_true_2 (e ≠ "y"%char)) by done. cbn [andb].
      destruct (Hgl e) as [?|He]; [by left|done|].
      destruct (Hds e He) as [_ Hez].
      destruct (decide (e ∈ sd)) as [Hin|Hin].
      * rewrite bool_decide_eq_true_2 by done.
        rewrite <- IH by done.
        apply (sum_fmap_shift _ _ ds e 1); [done|done| |].
        -- intros d Hd Hne. destruct (Hds d Hd) as [_ Hdz].
           by rewrite count_mark_first_ne, count_cons, decide_False.
        -- rewrite count_mark_first_eq, count_cons, decide_True by done. lia.
      * rewrite bool_decide_eq_false_2 by done.
        rewrite <- IH by done. apply sum_fmap_ext. intros d Hd.
        rewrite count_cons. destruct (decide (d = e)) as [->|Hne]; [|done].
        rewrite count_not_elem_of by done.
        pose proof (count_nonneg e gl). lia.
Qed.

Lemma mark_bulls_guess s : ∀ g e,
  e ∈ (mark_bulls s g).1.2 → e = "y"%char ∨ e ∈ g.
Proof.
  induction s as [|a s IH]; intros [|b g] e; simpl; try (by right).
  specialize (IH g). destruct (mark_bulls s g) as [[s' g'] n].
  destruct (decide (b = a)); simpl in *; intros He.
  - apply elem_of_cons in He as [?|He]; [by left|].
    destruct (IH e He); [by left|right; by right].
  - apply elem_of_cons in He as [->|He]; [right; by left|].
    destruct (IH e He); [by left|right; by right].
Qed.

(** On a secret and a sentinel-free guess of four characters each, the
    marking scheme computes the counting formula. *)
Lemma score_counting s g :
  length s = 4 → length g = 4 → Forall plain g →
  score s g
  = (sum ((λ sg, if decide (sg.1 = sg.2) then 1%Z else 0%Z) <$> zip s g),
     sum ((λ d, Z.min (count d s) (count d g))
            <$> elements (list_to_set g : gset ascii))
     - sum ((λ sg, if decide (sg.1 = sg.2) then 1%Z else 0%Z) <$> zip s g))%Z.
Proof.
  intros Hs Hg Hplain. unfold score.
  rewrite !take_ge, drop_ge by lia.
  rewrite <- mark_bulls_zip by lia.
  set (ds := elements (list_to_set g : gset ascii)).
  assert (NoDup ds) as Hnd by apply NoDup_elements.
  assert (∀ d, d ∈ ds ↔ d ∈ g) as Hds.
  { intros d. unfold ds. by rewrite elem_of_elements, elem_of_list_to_set. }
  assert (∀ d, d ∈ ds → plain d) as Hpl.
  { intros d Hd%Hds. by eapply (proj1 (Forall_forall _ _) Hplain). }
  rewrite (sum_fmap_ext _
    (λ d, count d (bull_chars s g)
          + Z.min (count d (mark_bulls s g).1.1) (count d (mark_bulls s g).1.2))%Z).
  2:{ intros d Hd. destruct (Hpl d Hd) as (Hx & Hy & _).
      rewrite (count_secret_split d s g Hx), (count_guess_split d s g Hy). lia. }
  rewrite sum_fmap_add, sum_count_length, bull_chars_length; [|done|].
  2:{ intros e He. apply Hds. by eapply bull_chars_guess. }
  rewrite (count_cows_sum ds (mark_bulls s g).1.2 (mark_bulls s g).1.1); [|done| |].
  - destruct (mark_bulls s g) as [[s' g'] n]. cbn [fst snd].
    rewrite app_nil_r. f_equal. lia.
  - intros d Hd. destruct (Hpl d Hd) as (_ & Hy & Hz). done.
  - intros e He. destruct (mark_bulls_guess s g e He) as [?|?]; [by left|].
    right. by apply Hds.
Qed.

(** A guess that contains one of the marks is scored differently by the two
    programs: the cows pass takes its ['y'] for a marked position. *)
Example marks_in_guess :
  compute_feedback "1y34" "y234" = Some (2, 0)%Z ∧
  UserGuessing.compute_feedback "1y34" "y234" = (2, 1)%Z.
Proof. split; vm_compute; reflexivity. Qed.
End Counting.

(** ** The candidate filter *)

Section Filter.
Import ComputerGuessing.

Lemma filter_step_consistent guess bulls cows filtered code :
  indexable code → indexable guess →
  filter_step guess bulls cows filtered code
  = Some (filtered ++ filter (consistent guess bulls cows) [code]).
Proof.
  intros Hc Hg. unfold filter_step.
  destruct (decide (consistent guess bulls cows code)) as [Hcons|Hcons].
  - rewrite filter_cons_True by done. unfold consistent in Hcons.
    rewrite Hcons. simpl. by rewrite decide_True.
  - rewrite filter_cons_False by done. unfold consistent in Hcons.
    rewrite compute_feedback_score in * by done.
    destruct (score _ _) as [b c]. simpl.
    rewrite decide_False; [by rewrite app_nil_r|]. intros [-> ->]. done.
Qed.

Lemma filter_loop_pure guess bulls cows possible_codes : ∀ filtered,
  Forall indexable possible_codes → indexable guess →
  for_each (filter_step guess bulls cows) possible_codes filtered
  = Some (filtered ++ filter (consistent guess bulls cows) possible_codes).
Proof.
  induction possible_codes as [|code codes IH]; intros filtered Hwf Hg.
  - simpl. by rewrite app_nil_r.
  - apply Forall_cons in Hwf as [Hc Hwf]. cbn [for_each].
    rewrite filter_step_consistent by done. cbn [mbind option_bind].
    rewrite IH by done. rewrite <- (assoc_L (++)). f_equal.
    by rewrite <- filter_app.
Qed.

Lemma filter_codes_filter possible_codes guess bulls cows :
  Forall indexable possible_codes → indexable guess →
  filter_codes possible_codes guess bulls cows
  = Some (filter (consistent guess bulls cows) possible_codes).
Proof. intros. unfold filter_codes. by rewrite filter_loop_pure. Qed.

(** The loop on the store: [filtered] receives the consistent codes from
    position [i] on, and nothing else changes. *)
Lemma filter_loop_store guess bulls cows pc fl codes fuel : ∀ i acc (σ : store),
  pc ≠ fl →
  σ !! pc = Some codes → σ !! fl = Some acc →
  Forall indexable codes → indexable guess →
  length codes - i < fuel →
  filter_loop fuel pc fl guess bulls cows i σ
  = Returns (<[fl := acc ++ filter (consistent guess bulls cows) (drop i codes)]> σ).
Proof.
  induction fuel as [|fuel IH]; intros i acc σ Hne Hpc Hfl Hwf Hg Hfuel; [lia|].
  cbn [filter_loop]. rewrite Hpc.
  destruct (codes !! i) as [code|] eqn:Hi.
  - assert (indexable code) as Hc.
    { eapply (proj1 (Forall_forall _ _) Hwf), list_elem_of_lookup_2, Hi. }
    apply lookup_lt_Some in Hi as Hlt.
    rewrite (drop_S _ _ _ Hi).
    assert (is_Some (compute_feedback code guess)) as [[b c] Hfb].
    { rewrite compute_feedback_score by done. eauto. }
    rewrite Hfb.
    destruct (decide (b = bulls ∧ c = cows)) as [[-> ->]|Hbc].
    + rewrite filter_cons_True by done.
      rewrite (IH (Datatypes.S i) (acc ++ [code])); [| done | | | done | done | lia].
      * rewrite insert_alter_eq. by rewrite <- (assoc_L (++)).
      * by rewrite lookup_alter_ne.
      * by rewrite lookup_alter_eq, Hfl.
    + rewrite filter_cons_False.
      * apply IH; [done..|lia].
      * unfold consistent. rewrite Hfb. intros [= -> ->]. by apply Hbc.
  - apply lookup_ge_None in Hi. rewrite drop_ge by done.
    rewrite filter_nil, app_nil_r. by rewrite insert_id.
Qed.

Lemma filter_codes_store_spec fuel pc guess bulls cows codes (σ : store) :
  σ !! pc = Some codes →
  Forall indexable codes → indexable guess →
  length codes < fuel →
  filter_codes_store fuel pc guess bulls cows σ
  = Returns (fresh (dom σ),
             <[fresh (dom σ) := filter (consistent guess bulls cows) codes]> σ).
Proof.
  intros Hpc Hwf Hg Hfuel. unfold filter_codes_store.
  assert (σ !! fresh (dom σ) = None) as Hfresh.
  { apply not_elem_of_dom, is_fresh. }
  assert (pc ≠ fresh (dom σ)) as Hne by (intros ->; congruence).
  rewrite (filter_loop_store guess bulls cows pc (fresh (dom σ)) codes fuel 0 []);
    [| done | | | done | done | lia].
  - by rewrite insert_insert_eq.
  - by rewrite lookup_insert_ne.
  - by rewrite lookup_insert_eq.
Qed.

Example filter_codes_short_guess :
  filter_codes ["1234"] "12" 3 2 = None.
Proof. reflexivity. Qed.

Example filter_codes_store_doc :
  filter_codes_store 5 1%positive "1432" 2 2
    {[1%positive := ["1234"; "1243"; "4321"; "1432"]%string]}
  = Returns (2%positive,
             <[2%positive := ["1234"]%string]>
               {[1%positive := ["1234"; "1243"; "4321"; "1432"]%string]}).
Proof. vm_compute. reflexivity. Qed.

Example filter_codes_store_out_of_fuel :
  filter_codes_store 2 1%positive "1432" 2 2
    {[1%positive := ["1234"; "1243"; "4321"; "1432"]%string]}
  = OutOfFuel.
Proof. vm_compute. reflexivity. Qed.
End Filter.

(** ** The dictionary of feedback counts *)

Section Tally.
Context {K : Type} `{EqDecision K}.
Implicit Types (d : list (K * Z)) (k : K) (v : Z).

Lemma dict_get_set_eq d k v def : dict_get (dict_set d k v) k def = v.
Proof.
  induction d as [|[k' v'] d IH]; simpl.
  - by rewrite decide_True.
  - destruct (decide (k = k')) as [->|Hne]; simpl.
    + by rewrite decide_True.
    + by rewrite decide_False.
Qed.

Lemma dict_get_set_ne d k k' v def :
  k ≠ k' → dict_get (dict_set d k v) k' def = dict_get d k' def.
Proof.
  intros Hne. induction d as [|[k0 v0] d IH]; simpl.
  - by rewrite decide_False.
  - destruct (decide (k = k0)) as [->|Hne0]; simpl.
    + by rewrite !decide_False.
    + by rewrite IH.
Qed.

Lemma dict_get_absent d k def : k ∉ d.*1 → dict_get d k def = def.
Proof.
  induction d as [|[k' v'] d IH]; simpl; [done|].
  intros [? ?]%not_elem_of_cons. rewrite decide_False by done. by apply IH.
Qed.

Lemma dict_get_elem_of d k v def :
  NoDup d.*1 → (k, v) ∈ d → dict_get d k def = v.
Proof.
  induction d as [|[k' v'] d IH]; simpl; intros Hnd Hin.
  - by apply elem_of_nil in Hin.
  - apply NoDup_cons in Hnd as [Hk' Hnd].
    apply elem_of_cons in Hin as [[= <- <-]|Hin].
    + by rewrite decide_True.
    + rewrite decide_False; [by apply IH|].
      intros <-. apply Hk'. apply list_elem_of_fmap. by exists (k, v).
Qed.

Lemma dict_set_keys d k v :
  (dict_set d k v).*1 = if decide (k ∈ d.*1) then d.*1 else d.*1 ++ [k].
Proof.
  induction d as [|[k' v'] d IH]; [done|]. cbn [dict_set].
  destruct (decide (k = k')) as [->|Hne]; rewrite !fmap_cons; cbn [fst].
  - rewrite decide_True; [done|by left].
  - rewrite IH. destruct (decide (k ∈ d.*1)).
    + rewrite decide_True; [done|by right].
    + rewrite decide_False; [done|]. by intros [?|?]%elem_of_cons.
Qed.

Lemma dict_set_NoDup d k v : NoDup d.*1 → NoDup (dict_set d k v).*1.
Proof.
  intros Hnd. rewrite dict_set_keys. destruct (decide (k ∈ d.*1)); [done|].
  apply NoDup_app. split_and!; [done| |apply NoDup_singleton].
  intros x Hx ->%list_elem_of_singleton. done.
Qed.

Lemma dict_set_sum d k v :
  sum (dict_values (dict_set d k v))
  = (sum (dict_values d) - dict_get d k 0 + v)%Z.
Proof.
  unfold dict_values. induction d as [|[k' v'] d IH]; cbn [dict_set dict_get].
  - unfold sum. simpl. lia.
  - destruct (decide (k = k')) as [->|Hne];
      rewrite !fmap_cons, !sum_cons; cbn [snd]; [lia|].
    rewrite IH. lia.
Qed.
End Tally.

Section TallyCounts.
Implicit Types (d : list (Z * Z * Z)) (k fb : Z * Z) (fbs : list (Z * Z)).

Lemma tally_get fbs : ∀ d k,
  dict_get (foldl tally_step d fbs) k 0%Z = (dict_get d k 0 + count k fbs)%Z.
Proof.
  induction fbs as [|fb fbs IH]; intros d k; simpl.
  - rewrite count_nil. lia.
  - rewrite IH, count_cons. unfold tally_step.
    destruct (decide (k = fb)) as [->|Hne].
    + rewrite dict_get_set_eq. lia.
    + rewrite dict_get_set_ne by done. lia.
Qed.

Lemma tally_NoDup fbs : ∀ d, NoDup d.*1 → NoDup (foldl tally_step d fbs).*1.
Proof.
  induction fbs as [|fb fbs IH]; intros d Hnd; simpl; [done|].
  apply IH. by apply dict_set_NoDup.
Qed.

Lemma tally_keys fbs : ∀ d k,
  k ∈ (foldl tally_step d fbs).*1 → k ∈ d.*1 ∨ k ∈ fbs.
Proof.
  induction fbs as [|fb fbs IH]; intros d k; simpl; [by left|].
  intros [Hk|Hk]%IH; [|right; by right].
  unfold tally_step in Hk. rewrite dict_set_keys in Hk.
  destruct (decide (fb ∈ d.*1)); [by left|].
  apply elem_of_app in Hk as [?|Hk]; [by left|].
  apply list_elem_of_singleton in Hk as ->. right. by left.
Qed.

Lemma tally_sum fbs : ∀ d,
  sum (dict_values (foldl tally_step d fbs))
  = (sum (dict_values d) + Z.of_nat (length fbs))%Z.
Proof.
  induction fbs as [|fb fbs IH]; intros d; simpl; [lia|].
  rewrite IH. unfold tally_step. rewrite dict_set_sum. lia.
Qed.

(** Every entry of the dictionary counts the occurrences of its key. *)
Lemma tally_entry fbs k v :
  (k, v) ∈ tally fbs → k ∈ fbs ∧ v = count k fbs.
Proof.
  intros Hin. unfold tally in *.
  pose proof (tally_NoDup fbs [] (NoDup_nil_2)) as Hnd.
  pose proof (tally_get fbs [] k) as Hget.
  rewrite (dict_get_elem_of _ k v) in Hget by done. simpl in Hget.
  split; [|lia].
  destruct (tally_keys fbs [] k) as [Hk|Hk]; [|by apply elem_of_nil in Hk|done].
  apply list_elem_of_fmap. by exists (k, v).
Qed.

Lemma tally_values_pos fbs :
  Forall (λ v, 1 ≤ v)%Z (dict_values (tally fbs)).
Proof.
  apply Forall_forall. intros v Hv.
  apply list_elem_of_fmap in Hv as ([k v'] & -> & Hin).
  apply tally_entry in Hin as [Hk ->]. by apply count_elem_of.
Qed.

Lemma NoDup_count {A} `{EqDecision A} (l : list A) :
  NoDup l ↔ ∀ x, x ∈ l → count x l = 1%Z.
Proof.
  induction l as [|a l IH].
  - split; [by intros _ x ?%elem_of_nil|intros; apply NoDup_nil_2].
  - rewrite NoDup_cons, IH. split.
    + intros [Ha Hl] x Hx. rewrite count_cons.
      destruct (decide (x = a)) as [->|Hne].
      * by rewrite count_not_elem_of.
      * apply elem_of_cons in Hx as [?|Hx]; [done|]. by rewrite Hl.
    + intros Hc. assert (a ∉ l) as Ha.
      { intros Ha. specialize (Hc a (list_elem_of_here _ _)).
        rewrite count_cons, decide_True in Hc by done.
        pose proof (count_elem_of a l Ha). lia. }
      split; [done|]. intros x Hx.
      specialize (Hc x (list_elem_of_further _ _ _ Hx)).
      rewrite count_cons, decide_False in Hc by (by intros ->). done.
Qed.

(** All counts are 1 exactly when the feedbacks are pairwise distinct. *)
Lemma tally_singletons fbs :
  Forall (λ v, v = 1%Z) (dict_values (tally fbs)) ↔ NoDup fbs.
Proof.
  rewrite NoDup_count, Forall_forall. split.
  - intros Hone k Hk.
    pose proof (tally_get fbs [] k) as Hget. simpl in Hget.
    pose proof (count_elem_of k fbs Hk) as Hpos.
    destruct (decide (k ∈ (tally fbs).*1)) as [Hkey|Hkey].
    + apply list_elem_of_fmap in Hkey as ([k' v] & -> & Hin). simpl.
      pose proof Hin as [_ <-]%tally_entry.
      apply Hone. apply list_elem_of_fmap. by exists (k', v).
    + unfold tally in Hkey. rewrite dict_get_absent in Hget by done. lia.
  - intros Hc v Hv.
    apply list_elem_of_fmap in Hv as ([k v'] & -> & Hin).
    apply tally_entry in Hin as [Hk ->]. by apply Hc.
Qed.

Lemma tally_total fbs : sum (dict_values (tally fbs)) = Z.of_nat (length fbs).
Proof. unfold tally. by rewrite tally_sum. Qed.
End TallyCounts.

(** ** The entropy estimator *)

Section Entropy.
Import ComputerGuessing.
Local Open Scope R_scope.

Lemma ln_2_pos : 0 < ln 2.
Proof. pose proof ln_lt_2. lra. Qed.

Lemma plog2_1 : plog2 1 = 0.
Proof. unfold plog2. rewrite ln_1. lra. Qed.

Lemma log2_ge_1 (v : Z) : (2 ≤ v)%Z → 1 <= ln (IZR v) / ln 2.
Proof.
  intros Hv. pose proof ln_2_pos as H2.
  assert (ln 2 <= ln (IZR v)) as Hln.
  { destruct (decide (v = 2%Z)) as [->|Hne]; [lra|].
    left. apply ln_increasing; [lra|]. apply IZR_lt. lia. }
  apply (Rmult_le_reg_r (ln 2)); [done|]. field_simplify; lra.
Qed.

Lemma plog2_ge (v : Z) : (2 ≤ v)%Z → IZR v <= plog2 v.
Proof.
  intros Hv. unfold plog2. pose proof (log2_ge_1 v Hv).
  assert (2 <= IZR v) by (apply IZR_le; lia). nra.
Qed.

Lemma plog2_lower (v : Z) : (1 ≤ v)%Z → 0 <= plog2 v ∧ IZR v - 1 <= plog2 v.
Proof.
  intros Hv. destruct (decide (v = 1%Z)) as [->|Hne].
  - rewrite plog2_1. lra.
  - pose proof (plog2_ge v ltac:(lia)).
    assert (2 <= IZR v) by (apply IZR_le; lia). lra.
Qed.

Lemma Rsum_cons x xs : Rsum (x :: xs) = x + Rsum xs.
Proof. done. Qed.

Lemma Rsum_plog2_lower (vs : list Z) :
  Forall (λ v, 1 ≤ v)%Z vs →
  0 <= Rsum (plog2 <$> vs) ∧
  IZR (sum vs) - INR (length vs) <= Rsum (plog2 <$> vs).
Proof.
  induction 1 as [|v vs Hv _ [IH0 IH1]].
  - simpl. lra.
  - rewrite fmap_cons, Rsum_cons, sum_cons, plus_IZR.
    cbn [length]. rewrite S_INR.
    pose proof (plog2_lower v Hv). lra.
Qed.

Lemma Rsum_plog2_ones (vs : list Z) :
  Forall (λ v, v = 1%Z) vs → Rsum (plog2 <$> vs) = 0.
Proof.
  induction 1 as [|v vs -> _ IH]; [done|].
  rewrite fmap_cons, Rsum_cons, plog2_1, IH. lra.
Qed.

(** A count of two or more costs at least two bits-times-count. *)
Lemma Rsum_plog2_gap (vs : list Z) :
  Forall (λ v, 1 ≤ v)%Z vs → ¬ Forall (λ v, v = 1%Z) vs →
  2 <= Rsum (plog2 <$> vs).
Proof.
  induction 1 as [|v vs Hv Hvs IH]; intros Hnot.
  - destruct Hnot. constructor.
  - rewrite fmap_cons, Rsum_cons.
    pose proof (Rsum_plog2_lower vs Hvs) as [H0 _].
    destruct (decide (v = 1%Z)) as [->|Hne].
    + rewrite plog2_1. assert (2 <= Rsum (plog2 <$> vs)); [|lra].
      apply IH. intros Hall. apply Hnot. by constructor.
    + pose proof (plog2_ge v ltac:(lia)).
      assert (2 <= IZR v) by (apply IZR_le; lia). lra.
Qed.
(** *** The two loops of [calculate_entropy] *)

Lemma count_step_score guess d code :
  indexable code → indexable guess →
  count_step guess d code
  = Some (tally_step d (score (list_ascii_of_string code)
                              (list_ascii_of_string guess))).
Proof.
  intros Hc Hg. unfold count_step. by rewrite compute_feedback_score.
Qed.

Lemma count_loop guess possible_codes : ∀ d,
  Forall indexable possible_codes → indexable guess →
  for_each (count_step guess) possible_codes d
  = Some (foldl tally_step d (feedbacks possible_codes guess)).
Proof.
  induction possible_codes as [|code codes IH]; intros d Hwf Hg; [done|].
  apply Forall_cons in Hwf as [Hc Hwf]. cbn [for_each].
  rewrite count_step_score by done.
  cbn [mbind option_bind]. by rewrite IH.
Qed.

Lemma log2_pos_Some x : 0 < x → log2 x = Some (ln x / ln 2).
Proof. intros Hx. unfold log2. by destruct (Rlt_dec 0 x). Qed.

Lemma entropy_step_pos n e (v : Z) :
  0 < INR n → (1 ≤ v)%Z →
  entropy_step n e v
  = Some (e - (plog2 v - IZR v * (ln (INR n) / ln 2)) / INR n).
Proof.
  intros Hn Hv. unfold entropy_step.
  assert (0 < IZR v) as Hv' by (apply IZR_lt; lia).
  assert (0 < / INR n) as Hinv by (by apply Rinv_0_lt_compat).
  rewrite log2_pos_Some by (by apply Rmult_lt_0_compat).
  cbn [mbind option_bind]. f_equal.
  replace (ln (IZR v / INR n)) with (ln (IZR v) - ln (INR n))
    by (unfold Rdiv; rewrite ln_mult, ln_Rinv by done; lra).
  unfold plog2. pose proof ln_2_pos. field. lra.
Qed.

Lemma entropy_loop n (vs : list Z) : ∀ e,
  0 < INR n → Forall (λ v, 1 ≤ v)%Z vs →
  for_each (entropy_step n) vs e
  = Some (e - (Rsum (plog2 <$> vs) - IZR (sum vs) * (ln (INR n) / ln 2))
              / INR n).
Proof.
  intros e Hn Hvs. pose proof ln_2_pos.
  revert e. induction Hvs as [|v vs Hv _ IH]; intros e.
  - simpl. f_equal. field. split; lra.
  - cbn [for_each]. rewrite entropy_step_pos by done.
    cbn [mbind option_bind]. rewrite IH. f_equal.
    rewrite fmap_cons, Rsum_cons, sum_cons, plus_IZR. field. split; lra.
Qed.

Lemma length_feedbacks possible_codes guess :
  length (feedbacks possible_codes guess) = length possible_codes.
Proof. unfold feedbacks. by rewrite length_fmap. Qed.

(** On a non-empty list of candidates the estimator returns, and what it
    returns is [entropy_value]. *)
Lemma calculate_entropy_value possible_codes guess :
  possible_codes ≠ [] →
  Forall indexable possible_codes → indexable guess →
  calculate_entropy possible_codes guess
  = Some (entropy_value possible_codes guess).
Proof.
  intros Hne Hwf Hg. unfold calculate_entropy, entropy_value, entropy_ceiling.
  assert (0 < length possible_codes)%nat as Hlen.
  { destruct possible_codes; [done|simpl; lia]. }
  rewrite decide_False by lia.
  rewrite count_loop by done. cbn [mbind option_bind].
  fold (tally (feedbacks possible_codes guess)).
  apply lt_0_INR in Hlen.
  rewrite entropy_loop by (done || apply tally_values_pos).
  rewrite tally_total, length_feedbacks, <- INR_IZR_INZ.
  pose proof ln_2_pos. f_equal. field. split; lra.
Qed.

Lemma calculate_entropy_empty guess : calculate_entropy [] guess = Some 0.
Proof. done. Qed.
(** *** The ceiling [log2 n] *)

Lemma score_in_range s g : score s g ∈ feedback_range.
Proof.
  pose proof (score_bound s g) as (Hb & Hc & Hbc).
  destruct (score s g) as [b c]. cbn [fst snd] in *.
  assert (b = 0 ∨ b = 1 ∨ b = 2 ∨ b = 3 ∨ b = 4)%Z as Hb' by lia.
  assert (c = 0 ∨ c = 1 ∨ c = 2 ∨ c = 3 ∨ c = 4)%Z as Hc' by lia.
  unfold feedback_range.
  destruct Hb' as [->|[->|[->|[->| ->]]]];
    destruct Hc' as [->|[->|[->|[->| ->]]]];
    first [lia | repeat (first [apply list_elem_of_here | apply list_elem_of_further])].
Qed.

Lemma tally_length guess possible_codes :
  (length (dict_values (tally (feedbacks possible_codes guess))) ≤ 15)%nat.
Proof.
  unfold dict_values. rewrite length_fmap, <- (length_fmap fst).
  change 15%nat with (length feedback_range).
  apply submseteq_length, NoDup_submseteq.
  - apply tally_NoDup, NoDup_nil_2.
  - intros k Hk. apply tally_keys in Hk as [Hk|Hk]; [by apply elem_of_nil in Hk|].
    apply list_elem_of_fmap in Hk as (code & -> & _). apply score_in_range.
Qed.

Lemma candidates_pos (possible_codes : list string) :
  possible_codes ≠ [] → 0 < INR (length possible_codes).
Proof.
  intros Hne. apply lt_0_INR. destruct possible_codes; [done|simpl; lia].
Qed.

Section Ceiling.
Context (possible_codes : list string) (guess : string).
Context (Hne : possible_codes ≠ []).

#[local] Abbreviation n := (length possible_codes).
#[local] Abbreviation vs :=
  (dict_values (tally (feedbacks possible_codes guess))).

Lemma entropy_value_le :
  entropy_value possible_codes guess <= entropy_ceiling possible_codes.
Proof.
  unfold entropy_value.
  assert (0 < INR n) as Hn by (by apply candidates_pos).
  pose proof (Rsum_plog2_lower vs (tally_values_pos _)) as [H0 _].
  assert (0 <= Rsum (plog2 <$> vs) / INR n); [|lra].
  apply Rmult_le_pos; [done|]. left. by apply Rinv_0_lt_compat.
Qed.

Lemma entropy_value_distinct :
  NoDup (feedbacks possible_codes guess) →
  entropy_value possible_codes guess = entropy_ceiling possible_codes.
Proof.
  intros Hnd%tally_singletons. unfold entropy_value.
  rewrite (Rsum_plog2_ones vs Hnd).
  assert (0 < INR n) as Hn by (by apply candidates_pos).
  unfold Rdiv. rewrite Rmult_0_l. lra.
Qed.

(** Two candidates with the same feedback put the entropy at least a
    sixteenth of a bit below the ceiling. *)
Lemma entropy_value_gap :
  ¬ NoDup (feedbacks possible_codes guess) →
  entropy_value possible_codes guess <= entropy_ceiling possible_codes - / 16.
Proof.
  intros Hdup. unfold entropy_value.
  assert (0 < INR n) as Hn by (by apply candidates_pos).
  assert (¬ Forall (λ v, v = 1%Z) vs) as Hnot.
  { intros Hall. by apply Hdup, tally_singletons. }
  pose proof (Rsum_plog2_gap vs (tally_values_pos _) Hnot) as H2.
  pose proof (Rsum_plog2_lower vs (tally_values_pos _)) as [_ Hlow].
  rewrite tally_total, length_feedbacks, <- INR_IZR_INZ in Hlow.
  pose proof (tally_length guess possible_codes) as Hk.
  apply le_INR in Hk. rewrite (INR_IZR_INZ 15) in Hk.
  change (Z.of_nat 15) with 15%Z in Hk.
  set (S := Rsum _) in *.
  assert (/ 16 <= S / INR n); [|lra].
  apply (Rmult_le_reg_r (INR n)); [done|].
  unfold Rdiv. rewrite Rmult_assoc, Rinv_l by lra. lra.
Qed.

Lemma entropy_value_ceiling :
  entropy_value possible_codes guess = entropy_ceiling possible_codes
  ↔ NoDup (feedbacks possible_codes guess).
Proof.
  split; [|apply entropy_value_distinct].
  intros Heq. destruct (decide (NoDup (feedbacks possible_codes guess)))
    as [|Hdup]; [done|].
  pose proof (entropy_value_gap Hdup). lra.
Qed.
End Ceiling.
(** *** The entropy is not negative *)

Lemma count_le_length {A} `{EqDecision A} (x : A) l :
  (count x l ≤ Z.of_nat (length l))%Z.
Proof. unfold count. pose proof (length_filter (x =.) l). lia. Qed.

Lemma plog2_upper (v n : Z) :
  (1 ≤ v ≤ n)%Z → plog2 v <= IZR v * (ln (IZR n) / ln 2).
Proof.
  intros [Hv Hn]. unfold plog2. pose proof ln_2_pos as H2.
  assert (0 < IZR v) by (apply IZR_lt; lia).
  assert (ln (IZR v) <= ln (IZR n)) as Hln.
  { destruct (decide (v = n)) as [->|Hne]; [lra|].
    left. apply ln_increasing; [done|]. apply IZR_lt. lia. }
  apply Rmult_le_compat_l; [lra|].
  apply Rmult_le_compat_r; [|done]. left. by apply Rinv_0_lt_compat.
Qed.

Lemma Rsum_plog2_upper (vs : list Z) (n : Z) :
  Forall (λ v, 1 ≤ v ≤ n)%Z vs →
  Rsum (plog2 <$> vs) <= IZR (sum vs) * (ln (IZR n) / ln 2).
Proof.
  induction 1 as [|v vs Hv _ IH]; [simpl; lra|].
  rewrite fmap_cons, Rsum_cons, sum_cons, plus_IZR.
  pose proof (plog2_upper v n Hv). lra.
Qed.

Lemma entropy_value_nonneg possible_codes guess :
  possible_codes ≠ [] → 0 <= entropy_value possible_codes guess.
Proof.
  intros Hne. unfold entropy_value.
  pose proof (candidates_pos possible_codes Hne) as Hn.
  set (fbs := feedbacks possible_codes guess).
  assert (Forall (λ v, 1 ≤ v ≤ Z.of_nat (length possible_codes))%Z
            (dict_values (tally fbs))) as Hvs.
  { apply Forall_forall. intros v Hv.
    apply list_elem_of_fmap in Hv as ([k v'] & -> & Hin).
    apply tally_entry in Hin as [Hk ->]. cbn [snd]. split.
    - by apply count_elem_of.
    - rewrite <- (length_feedbacks possible_codes guess).
      apply count_le_length. }
  pose proof (Rsum_plog2_upper _ _ Hvs) as Hup.
  rewrite tally_total, <- !INR_IZR_INZ in Hup.
  unfold fbs in Hup at 2. rewrite length_feedbacks in Hup.
  unfold entropy_ceiling.
  set (S := Rsum _) in *. set (L := ln _ / ln 2) in *.
  assert (S / INR (length possible_codes) <= L); [|lra].
  apply (Rmult_le_reg_r (INR (length possible_codes))); [done|].
  unfold Rdiv at 1. rewrite Rmult_assoc, Rinv_l by lra. lra.
Qed.
End Entropy.

(** ** The guess selector *)

Section Selector.
Import ComputerGuessing.
Local Open Scope R_scope.

Context (possible_codes : list string).
Context (Hne : possible_codes ≠ []).
Context (Hwf : Forall indexable possible_codes).

#[local] Abbreviation ceiling := (entropy_ceiling possible_codes).
#[local] Abbreviation ent := (entropy_value possible_codes).

Lemma tolerance_bounds : 0 < tolerance < / 16.
Proof. unfold tolerance. simpl. lra. Qed.

Lemma log2_ceiling : log2 (INR (length possible_codes)) = Some ceiling.
Proof. unfold entropy_ceiling. apply log2_pos_Some. by apply candidates_pos. Qed.

Lemma ent_le guess : ent guess <= ceiling.
Proof. by apply entropy_value_le. Qed.

(** A guess either reaches the ceiling or stays a sixteenth below it. *)
Lemma ent_dichotomy guess : ent guess = ceiling ∨ ent guess <= ceiling - / 16.
Proof.
  destruct (decide (NoDup (feedbacks possible_codes guess))) as [Hnd|Hdup].
  - left. by apply entropy_value_distinct.
  - right. by apply entropy_value_gap.
Qed.

Lemma ceiling_nonneg : 0 <= ceiling.
Proof.
  pose proof (entropy_value_nonneg possible_codes ""%string Hne).
  pose proof (ent_le ""%string). lra.
Qed.

(** The early-exit test holds exactly at the ceiling. *)
Lemma early_exit_test m :
  m = ceiling ∨ m <= ceiling - / 16 →
  Rabs (m - ceiling) < tolerance ↔ m = ceiling.
Proof.
  pose proof tolerance_bounds as [Ht0 Ht1]. intros [->|Hm]; split.
  - done.
  - intros _. replace (ceiling - ceiling) with 0 by lra. by rewrite Rabs_R0.
  - intros Habs. rewrite Rabs_left in Habs by lra. lra.
  - intros ->. lra.
Qed.

(** At the ceiling the search without early exit changes nothing. *)
Lemma no_exit_settled all_codes : ∀ best,
  Forall indexable all_codes →
  NoEarlyExit.find_best_guess_loop possible_codes all_codes ceiling best
  = Some (best, ceiling).
Proof.
  induction all_codes as [|guess rest IH]; intros best Hall; [done|].
  apply Forall_cons in Hall as [Hg Hall].
  cbn [NoEarlyExit.find_best_guess_loop].
  rewrite calculate_entropy_value by done. cbn [mbind option_bind].
  pose proof (ent_le guess).
  destruct (Rgt_dec _ ceiling) as [Hgt|_]; [lra|]. by apply IH.
Qed.

(** The early exit does not change the result. *)
Lemma early_exit_agrees all_codes : ∀ m best,
  Forall indexable all_codes →
  m <= ceiling - / 16 →
  find_best_guess_loop possible_codes all_codes m best
  = NoEarlyExit.find_best_guess_loop possible_codes all_codes m best.
Proof.
  induction all_codes as [|guess rest IH]; intros m best Hall Hm; [done|].
  apply Forall_cons in Hall as [Hg Hall].
  cbn [find_best_guess_loop NoEarlyExit.find_best_guess_loop].
  rewrite calculate_entropy_value by done. cbn [mbind option_bind].
  rewrite log2_ceiling.
  destruct (Rgt_dec (ent guess) m) as [Hgt|Hle]; cbn [mbind option_bind].
  - destruct (ent_dichotomy guess) as [Heq|Hlow].
    + destruct (Rlt_dec _ tolerance) as [_|Hno].
      * rewrite Heq. by rewrite no_exit_settled.
      * destruct Hno. apply early_exit_test; [by left|done].
    + destruct (Rlt_dec _ tolerance) as [Hyes|_]; [|by apply IH].
      apply early_exit_test in Hyes; [|by right].
      pose proof tolerance_bounds. lra.
  - destruct (Rlt_dec _ tolerance) as [Hyes|_]; [|by apply IH].
    apply early_exit_test in Hyes; [|by right].
    pose proof tolerance_bounds. lra.
Qed.
(** The search without early exit keeps the running maximum and the first
    guess that reached it. *)
Lemma no_exit_first_max all_codes : ∀ m best,
  Forall indexable all_codes →
  ∃ g e,
    NoEarlyExit.find_best_guess_loop possible_codes all_codes m best
    = Some (g, e) ∧
    ((g = best ∧ e = m ∧ ∀ g', g' ∈ all_codes → ent g' <= m) ∨
     (∃ k, all_codes !! k = Some g ∧ e = ent g ∧ m < e ∧
           ∀ j g', all_codes !! j = Some g' →
                   ent g' <= e ∧ ((j < k)%nat → ent g' < e))).
Proof.
  induction all_codes as [|guess rest IH]; intros m best Hall.
  - exists best, m. split; [done|]. left. split_and!; [done..|].
    by intros g' ?%elem_of_nil.
  - apply Forall_cons in Hall as [Hg Hall].
    cbn [NoEarlyExit.find_best_guess_loop].
    rewrite calculate_entropy_value by done. cbn [mbind option_bind].
    destruct (Rgt_dec (ent guess) m) as [Hgt|Hle].
    + destruct (IH (ent guess) guess Hall) as (g & e & -> & Hcase).
      exists g, e. split; [done|]. right.
      destruct Hcase as [(-> & -> & Hrest)|(k & Hk & -> & Hlt & Hmax)].
      * exists 0%nat. split_and!; [done|done|lra|].
        intros [|j] g' Hj; simpl in Hj.
        -- injection Hj as <-. split; [lra|lia].
        -- split; [|lia]. apply Hrest. by eapply list_elem_of_lookup_2.
      * exists (Datatypes.S k). split_and!; [done|done|lra|].
        intros [|j] g' Hj; simpl in Hj.
        -- injection Hj as <-. split; [lra|intros _; lra].
        -- destruct (Hmax j g' Hj) as [? Hbefore].
           split; [done|]. intros ?. apply Hbefore. lia.
    + destruct (IH m best Hall) as (g & e & -> & Hcase).
      exists g, e. split; [done|].
      destruct Hcase as [(-> & -> & Hrest)|(k & Hk & -> & Hlt & Hmax)].
      * left. split_and!; [done..|].
        intros g' [->|Hin]%elem_of_cons; [lra|by apply Hrest].
      * right. exists (Datatypes.S k). split_and!; [done|done|lra|].
        intros [|j] g' Hj; simpl in Hj.
        -- injection Hj as <-. split; [lra|intros _; lra].
        -- destruct (Hmax j g' Hj) as [? Hbefore].
           split; [done|]. intros ?. apply Hbefore. lia.
Qed.

(** With and without the early exit, [find_best_guess] returns the first
    guess of greatest entropy. *)
Lemma find_best_guess_first_max all_codes :
  Forall indexable all_codes → all_codes ≠ [] →
  ∃ k g e,
    find_best_guess possible_codes all_codes = Some (g, e) ∧
    NoEarlyExit.find_best_guess possible_codes all_codes = Some (g, e) ∧
    first_maximizer possible_codes all_codes k g e.
Proof.
  intros Hall Hnil.
  unfold find_best_guess, NoEarlyExit.find_best_guess.
  assert (is_Some (possible_codes !! 0%nat)) as [code0 ->].
  { apply lookup_lt_is_Some.
    assert (length possible_codes ≠ 0%nat) by (by intros ?%nil_length_inv).
    lia. }
  cbn [mbind option_bind].
  pose proof ceiling_nonneg as Hc.
  rewrite early_exit_agrees by (done || lra).
  destruct (no_exit_first_max all_codes (-1) code0 Hall)
    as (g & e & Hloop & Hcase).
  rewrite Hloop.
  destruct Hcase as [(_ & _ & Hrest)|(k & Hk & -> & Hlt & Hmax)].
  - destruct all_codes as [|g0 rest]; [done|].
    pose proof (Hrest g0 (list_elem_of_here _ _)).
    pose proof (entropy_value_nonneg possible_codes g0 Hne).
    lra.
  - exists k, g, (ent g). split_and!; [done|done|].
    assert (∀ j g', all_codes !! j = Some g' → indexable g') as Hidx.
    { intros j g' Hj. eapply (proj1 (Forall_forall _ _) Hall).
      by eapply list_elem_of_lookup_2. }
    split_and!; [done| |].
    + rewrite calculate_entropy_value; [done..|]. by eapply Hidx.
    + intros j g' e' Hj He'.
      rewrite calculate_entropy_value in He'; [|done..|by eapply Hidx].
      injection He' as <-. by apply Hmax.
Qed.
End Selector.

Section EntropyExamples.
Import ComputerGuessing.
Local Open Scope R_scope.

(** Two candidates that score differently: one bit. *)
Example calculate_entropy_one_bit :
  calculate_entropy ["1234"; "1243"] "1234" = Some 1.
Proof.
  rewrite calculate_entropy_value;
    [|discriminate|repeat constructor; unfold indexable; simpl; lia
     |unfold indexable; simpl; lia].
  f_equal. rewrite entropy_value_distinct; [|discriminate|].
  - unfold entropy_ceiling. replace (INR (length ["1234"; "1243"]%string)) with 2
      by (simpl; lra).
    pose proof ln_2_pos. field. lra.
  - apply (bool_decide_unpack _). vm_compute. exact I.
Qed.

(** The same code twice: both entries score alike, no information. *)
Example calculate_entropy_repeated :
  calculate_entropy ["1234"; "1234"] "1234" = Some 0.
Proof.
  rewrite calculate_entropy_value;
    [|discriminate|repeat constructor; unfold indexable; simpl; lia
     |unfold indexable; simpl; lia].
  f_equal. unfold entropy_value, entropy_ceiling.
  replace (tally (feedbacks ["1234"; "1234"] "1234")) with [((4, 0), 2)]%Z
    by (vm_compute; reflexivity).
  replace (INR (length ["1234"; "1234"]%string)) with 2 by (simpl; lra).
  unfold dict_values, plog2. simpl. pose proof ln_2_pos. field. lra.
Qed.
End EntropyExamples.

(** ** Properties of the solver *)

Section Claims.
Import ComputerGuessing.
Local Open Scope R_scope.

Lemma find_best_guess_agrees possible_codes all_codes :
  possible_codes ≠ [] →
  Forall indexable possible_codes → Forall indexable all_codes →
  ∃ g e,
    find_best_guess possible_codes all_codes = Some (g, e) ∧
    NoEarlyExit.find_best_guess possible_codes all_codes = Some (g, e) ∧
    (all_codes ≠ [] → ∃ k, first_maximizer possible_codes all_codes k g e).
Proof.
  intros Hne Hwf Hall. destruct (decide (all_codes = [])) as [->|Hnil].
  - destruct possible_codes as [|code0 codes]; [done|].
    exists code0, (-1). by split_and!.
  - destruct (find_best_guess_first_max possible_codes Hne Hwf all_codes Hall Hnil)
      as (k & g & e & H1 & H2 & H3).
    exists g, e. split_and!; [done..|]. intros _. by exists k.
Qed.

Lemma feedbacks_compute possible_codes guess :
  Forall indexable possible_codes → indexable guess →
  (λ code, compute_feedback code guess) <$> possible_codes
  = Some <$> feedbacks possible_codes guess.
Proof.
  intros Hwf Hg. unfold feedbacks. rewrite <- list_fmap_compose.
  apply Forall_fmap_ext. eapply Forall_impl; [exact Hwf|].
  intros code Hc. simpl. by apply compute_feedback_score.
Qed.

Lemma distinct_feedbacks_NoDup possible_codes guess :
  Forall indexable possible_codes → indexable guess →
  distinct_feedbacks possible_codes guess
  ↔ NoDup (feedbacks possible_codes guess).
Proof.
  intros Hwf Hg.
  rewrite <- (NoDup_fmap Some), <- feedbacks_compute by done.
  rewrite NoDup_alt. unfold distinct_feedbacks. split.
  - intros Hd i j fb Hi Hj. rewrite list_lookup_fmap in Hi, Hj.
    destruct (possible_codes !! i) as [code|] eqn:Hci; [|done].
    destruct (possible_codes !! j) as [code'|] eqn:Hcj; [|done].
    simpl in *. apply (Hd i j code code'); congruence.
  - intros Hnd i j code code' Hi Hj Heq.
    apply (Hnd i j (compute_feedback code guess));
      rewrite list_lookup_fmap; [by rewrite Hi|by rewrite Hj, Heq].
Qed.
Lemma distinct_feedbacks_injective possible_codes guess :
  NoDup possible_codes →
  distinct_feedbacks possible_codes guess
  ↔ injective_feedback possible_codes guess.
Proof.
  intros Hnd. unfold distinct_feedbacks, injective_feedback. split.
  - intros Hd code code' Hin Hin' Heq.
    apply list_elem_of_lookup in Hin as [i Hi].
    apply list_elem_of_lookup in Hin' as [j Hj].
    pose proof (Hd i j code code' Hi Hj Heq) as ->. congruence.
  - intros Hinj i j code code' Hi Hj Heq.
    assert (code = code') as <-.
    { apply Hinj; [by eapply list_elem_of_lookup_2..|done]. }
    by eapply (proj1 (NoDup_alt _) Hnd).
Qed.
End Claims.

(** C1.  On a list of codes and a guess of at least four characters each,
    [filter_codes] returns, in their order and with their repetitions,
    exactly the codes whose feedback against the guess is [(bulls, cows)]:
    a code of the list is retained when it scores the given feedback and
    removed when it does not. *)
Theorem filter_codes_exact possible_codes guess bulls cows :
  Forall indexable possible_codes → indexable guess →
  ∃ filtered,
    ComputerGuessing.filter_codes possible_codes guess bulls cows
    = Some filtered ∧
    filtered = filter (consistent guess bulls cows) possible_codes ∧
    ∀ code, code ∈ filtered ↔
            code ∈ possible_codes ∧
            ComputerGuessing.compute_feedback code guess = Some (bulls, cows).
Proof.
  intros Hwf Hg. eexists. split; [by apply filter_codes_filter|].
  split; [done|]. intros code. rewrite list_elem_of_filter. unfold consistent.
  tauto.
Qed.

Lemma filter_codes_exact_witness :
  Forall indexable ["1234"; "1243"; "4321"; "1432"]%string ∧
  indexable "1432" ∧
  ∃ filtered,
    ComputerGuessing.filter_codes ["1234"; "1243"; "4321"; "1432"] "1432" 2 2
    = Some filtered ∧
    filtered = filter (consistent "1432" 2 2) ["1234"; "1243"; "4321"; "1432"] ∧
    ∀ code, code ∈ filtered ↔
            code ∈ ["1234"; "1243"; "4321"; "1432"]%string ∧
            ComputerGuessing.compute_feedback code "1432" = Some (2, 2)%Z.
Proof.
  assert (indexable "1432") as Hg by (unfold indexable; simpl; lia).
  assert (Forall indexable ["1234"; "1243"; "4321"; "1432"]%string) as Hwf
    by (repeat constructor; unfold indexable; simpl; lia).
  split; [exact Hwf|]. split; [exact Hg|].
  exact (filter_codes_exact _ _ 2%Z 2%Z Hwf Hg).
Defined.





(** C4.  On two 4-character digit strings, repeated digits allowed, the
    marking scheme of the computer-guessing program and the counting formula
    of the user-guessing program (bulls: the positions that match; cows: the
    sum over the digits of the guess of the smaller number of occurrences,
    less the bulls) return the same pair. *)
Theorem compute_feedback_marking_counting secret guess :
  digits4 secret → digits4 guess →
  ComputerGuessing.compute_feedback secret guess
  = Some (UserGuessing.compute_feedback secret guess).
Proof.
  intros [Hs _] [Hg Hdg].
  rewrite compute_feedback_score by (unfold indexable; lia).
  unfold UserGuessing.compute_feedback. f_equal.
  apply score_counting.
  - by rewrite length_list_ascii_of_string.
  - by rewrite length_list_ascii_of_string.
  - eapply Forall_impl; [exact Hdg|]. intros c. apply is_digit_plain.
Qed.

Lemma compute_feedback_marking_counting_witness :
  digits4 "1122" ∧ digits4 "1211" ∧
  ComputerGuessing.compute_feedback "1122" "1211"
  = Some (UserGuessing.compute_feedback "1122" "1211").
Proof.
  assert (digits4 "1122") as Hs by (split; [reflexivity|by repeat constructor]).
  assert (digits4 "1211") as Hg by (split; [reflexivity|by repeat constructor]).
  split; [exact Hs|]. split; [exact Hg|].
  exact (compute_feedback_marking_counting _ _ Hs Hg).
Defined.

(** C5.  On two 4-character digit strings [compute_feedback] returns a pair
    [(bulls, cows)] with [0 ≤ bulls ≤ 4], [0 ≤ cows ≤ 4] and
    [bulls + cows ≤ 4]. *)
Theorem compute_feedback_bounds secret guess :
  digits4 secret → digits4 guess →
  ∃ bulls cows,
    ComputerGuessing.compute_feedback secret guess = Some (bulls, cows) ∧
    (0 ≤ bulls ≤ 4)%Z ∧ (0 ≤ cows ≤ 4)%Z ∧ (bulls + cows ≤ 4)%Z.
Proof.
  intros Hs%digits4_indexable Hg%digits4_indexable.
  pose proof (compute_feedback_score secret guess Hs Hg) as Hfb.
  destruct (score _ _) as [b c]. exists b, c. split; [done|].
  by apply (compute_feedback_bound secret guess).
Qed.

Lemma compute_feedback_bounds_witness :
  digits4 "1234" ∧ digits4 "1432" ∧
  ∃ bulls cows,
    ComputerGuessing.compute_feedback "1234" "1432" = Some (bulls, cows) ∧
    (0 ≤ bulls ≤ 4)%Z ∧ (0 ≤ cows ≤ 4)%Z ∧ (bulls + cows ≤ 4)%Z.
Proof.
  assert (digits4 "1234") as Hs by (split; [reflexivity|by repeat constructor]).
  assert (digits4 "1432") as Hg by (split; [reflexivity|by repeat constructor]).
  split; [exact Hs|]. split; [exact Hg|].
  exact (compute_feedback_bounds _ _ Hs Hg).
Defined.

(** C6.  Run on a store where [possible_codes] refers to a list of codes
    (codes and guess at least four characters long), with fuel for every
    iteration, [filter_codes] returns the reference of a list that did not
    exist before; afterwards the list behind [possible_codes] is what it
    was, every other list is untouched, and the new list is a subsequence of
    the candidates: its elements occur among them, in the same relative
    order, and it is no longer than they are.  It holds the same codes as the
    functional reading [filter_codes] returns. *)
Theorem filter_codes_subsequence (σ : ComputerGuessing.store) pc codes guess
    bulls cows fuel :
  σ !! pc = Some codes →
  Forall indexable codes → indexable guess →
  length codes < fuel →
  ∃ fl filtered,
    ComputerGuessing.filter_codes_store fuel pc guess bulls cows σ
    = ComputerGuessing.Returns (fl, <[fl := filtered]> σ) ∧
    σ !! fl = None ∧
    (<[fl := filtered]> σ) !! pc = Some codes ∧
    ComputerGuessing.filter_codes codes guess bulls cows = Some filtered ∧
    filtered `sublist_of` codes ∧
    length filtered ≤ length codes.
Proof.
  intros Hpc Hwf Hg Hfuel.
  exists (fresh (dom σ)), (filter (consistent guess bulls cows) codes).
  assert (σ !! fresh (dom σ) = None) as Hfresh.
  { apply not_elem_of_dom, is_fresh. }
  split_and!.
  - by apply filter_codes_store_spec.
  - done.
  - rewrite lookup_insert_ne; [done|]. intros Heq. congruence.
  - by apply filter_codes_filter.
  - apply sublist_filter.
  - apply length_filter.
Qed.

Lemma filter_codes_subsequence_witness :
  ({[1%positive := ["1234"; "1243"; "4321"]%string]} : ComputerGuessing.store)
    !! 1%positive = Some ["1234"; "1243"; "4321"]%string ∧
  Forall indexable ["1234"; "1243"; "4321"]%string ∧
  indexable "1432" ∧
  length ["1234"; "1243"; "4321"]%string < 4 ∧
  ∃ fl filtered,
    ComputerGuessing.filter_codes_store 4 1%positive "1432" 2 2
      {[1%positive := ["1234"; "1243"; "4321"]%string]}
    = ComputerGuessing.Returns
        (fl, <[fl := filtered]>
               {[1%positive := ["1234"; "1243"; "4321"]%string]}) ∧
    ({[1%positive := ["1234"; "1243"; "4321"]%string]}
       : ComputerGuessing.store) !! fl = None ∧
    (<[fl := filtered]> {[1%positive := ["1234"; "1243"; "4321"]%string]}
       : ComputerGuessing.store) !! 1%positive
    = Some ["1234"; "1243"; "4321"]%string ∧
    ComputerGuessing.filter_codes ["1234"; "1243"; "4321"] "1432" 2 2
    = Some filtered ∧
    filtered `sublist_of` ["1234"; "1243"; "4321"]%string ∧
    length filtered ≤ length ["1234"; "1243"; "4321"]%string.
Proof.
  assert (({[1%positive := ["1234"; "1243"; "4321"]%string]}
             : ComputerGuessing.store) !! 1%positive
          = Some ["1234"; "1243"; "4321"]%string) as Hpc
    by apply lookup_singleton_eq.
  assert (Forall indexable ["1234"; "1243"; "4321"]%string) as Hwf
    by (repeat constructor; unfold indexable; simpl; lia).
  assert (indexable "1432") as Hg by (unfold indexable; simpl; lia).
  assert (length ["1234"; "1243"; "4321"]%string < 4) as Hfuel by (simpl; lia).
  split; [exact Hpc|]. split; [exact Hwf|]. split; [exact Hg|].
  split; [exact Hfuel|].
  exact (filter_codes_subsequence _ _ _ _ 2%Z 2%Z _ Hpc Hwf Hg Hfuel).
Defined.

(** C7.  For candidates that are 4-character digit strings, a guess of at
    least four characters and a feedback pair with [bulls + cows > 4], such
    as [(3, 2)], [filter_codes] returns the empty list and does not raise:
    no feedback that [compute_feedback] produces sums to more than 4. *)
Theorem filter_codes_unreachable_feedback possible_codes guess bulls cows :
  Forall digits4 possible_codes → indexable guess →
  (4 < bulls + cows)%Z →
  ComputerGuessing.filter_codes possible_codes guess bulls cows = Some [].
Proof.
  intros Hwf Hg Hsum.
  assert (Forall indexable possible_codes) as Hidx.
  { eapply Forall_impl; [exact Hwf|]. apply digits4_indexable. }
  rewrite filter_codes_filter by done. f_equal.
  destruct (filter _ possible_codes) as [|code l] eqn:Hf; [done|]. exfalso.
  assert (code ∈ filter (consistent guess bulls cows) possible_codes) as Hin
    by (rewrite Hf; left).
  apply list_elem_of_filter in Hin as [Hcons Hin]. unfold consistent in Hcons.
  apply compute_feedback_bound in Hcons; [lia| |done].
  by eapply (proj1 (Forall_forall _ _) Hidx).
Qed.

Lemma filter_codes_unreachable_feedback_witness :
  Forall digits4 ["1234"; "5678"]%string ∧
  indexable "1234" ∧
  (4 < 3 + 2)%Z ∧
  ComputerGuessing.filter_codes ["1234"; "5678"] "1234" 3 2 = Some [].
Proof.
  assert (Forall digits4 ["1234"; "5678"]%string) as Hwf
    by (repeat constructor; (reflexivity || by repeat constructor)).
  assert (indexable "1234") as Hg by (unfold indexable; simpl; lia).
  assert (4 < 3 + 2)%Z as Hsum by lia.
  split; [exact Hwf|]. split; [exact Hg|]. split; [exact Hsum|].
  exact (filter_codes_unreachable_feedback _ _ _ _ Hwf Hg Hsum).
Defined.

(** C8.  When [possible_codes] and [all_codes] are not empty (every string
    at least four characters long), [find_best_guess] raises nothing: the
    first candidate [possible_codes[0]] exists, [log2] of the number of
    candidates is defined, the call returns a pair, and the guess of the
    pair is a member of [all_codes].  Floats are read as real numbers. *)
Theorem find_best_guess_total possible_codes all_codes :
  possible_codes ≠ [] → all_codes ≠ [] →
  Forall indexable possible_codes → Forall indexable all_codes →
  is_Some (possible_codes !! 0) ∧
  is_Some (log2 (INR (length possible_codes))) ∧
  ∃ g e,
    ComputerGuessing.find_best_guess possible_codes all_codes = Some (g, e) ∧
    g ∈ all_codes.
Proof.
  intros Hne Hnil Hwf Hall. split_and!.
  - destruct possible_codes; [done|]. by eexists.
  - rewrite log2_ceiling by done. by eexists.
  - destruct (find_best_guess_first_max possible_codes Hne Hwf all_codes Hall Hnil)
      as (k & g & e & H1 & _ & Hk & _).
    exists g, e. split; [done|]. by eapply list_elem_of_lookup_2.
Qed.

Lemma find_best_guess_total_witness :
  ["1234"; "1243"]%string ≠ [] ∧
  ["0123"; "1234"]%string ≠ [] ∧
  Forall indexable ["1234"; "1243"]%string ∧
  Forall indexable ["0123"; "1234"]%string ∧
  is_Some (["1234"; "1243"]%string !! 0) ∧
  is_Some (log2 (INR (length ["1234"; "1243"]%string))) ∧
  ∃ g e,
    ComputerGuessing.find_best_guess ["1234"; "1243"] ["0123"; "1234"]
    = Some (g, e) ∧
    g ∈ ["0123"; "1234"]%string.
Proof.
  assert (["1234"; "1243"]%string ≠ []) as Hne by discriminate.
  assert (["0123"; "1234"]%string ≠ []) as Hnil by discriminate.
  assert (Forall indexable ["1234"; "1243"]%string) as Hwf
    by (repeat constructor; unfold indexable; simpl; lia).
  assert (Forall indexable ["0123"; "1234"]%string) as Hall
    by (repeat constructor; unfold indexable; simpl; lia).
  split; [exact Hne|]. split; [exact Hnil|]. split; [exact Hwf|].
  split; [exact Hall|].
  exact (find_best_guess_total _ _ Hne Hnil Hwf Hall).
Defined.

(** C9.  A 4-character digit string scored against itself gives four bulls
    and no cow; so does ["1234"] against ["1234"]. *)
Theorem compute_feedback_self code :
  digits4 code →
  ComputerGuessing.compute_feedback code code = Some (4, 0)%Z.
Proof.
  intros Hc%digits4_indexable.
  rewrite compute_feedback_score by done. f_equal.
  apply score_self. by rewrite length_list_ascii_of_string.
Qed.

Lemma compute_feedback_self_witness :
  digits4 "1234" ∧
  ComputerGuessing.compute_feedback "1234" "1234" = Some (4, 0)%Z.
Proof.
  assert (digits4 "1234") as Hc by (split; [reflexivity|by repeat constructor]).
  split; [exact Hc|]. exact (compute_feedback_self _ Hc).
Defined.

(** C10.  With a single candidate [c] and a guess list that starts with
    [g0] (both at least four characters long), [find_best_guess] returns
    [(g0, 0.0)]: against one candidate every guess has entropy 0, which is
    the ceiling [log2 1], so the early exit ends the search at the first
    guess, whether or not it is the candidate.  Floats are read as real
    numbers. *)
Theorem find_best_guess_singleton c g0 rest :
  indexable c → indexable g0 →
  ComputerGuessing.find_best_guess [c] (g0 :: rest) = Some (g0, 0%R).
Proof.
  intros Hc Hg.
  assert ([c] ≠ []) as Hne by discriminate.
  assert (Forall indexable [c]) as Hwf by (by repeat constructor).
  assert (entropy_ceiling [c] = 0%R) as Hceil.
  { unfold entropy_ceiling. simpl. rewrite ln_1. lra. }
  assert (entropy_value [c] g0 = 0%R) as Hent.
  { rewrite entropy_value_distinct; [done..|]. unfold feedbacks. simpl.
    apply NoDup_singleton. }
  unfold ComputerGuessing.find_best_guess.
  change ([c] !! 0%nat) with (Some c).
  cbn [mbind option_bind ComputerGuessing.find_best_guess_loop].
  rewrite calculate_entropy_value, (log2_ceiling [c] Hne), Hent, Hceil by done.
  cbn [mbind option_bind].
  destruct (Rgt_dec 0 (-1)) as [_|Hno]; [|lra].
  destruct (Rlt_dec (Rabs (0 - 0)) ComputerGuessing.tolerance) as [_|Hno]; [done|].
  destruct Hno. replace (0 - 0)%R with 0%R by lra. rewrite Rabs_R0.
  apply tolerance_bounds.
Qed.

Lemma find_best_guess_singleton_witness :
  indexable "1234" ∧ indexable "0123" ∧
  ComputerGuessing.find_best_guess ["1234"] ["0123"; "1234"]
  = Some ("0123"%string, 0%R) ∧
  "0123"%string ≠ "1234"%string.
Proof.
  assert (indexable "1234") as Hc by (unfold indexable; simpl; lia).
  assert (indexable "0123") as Hg by (unfold indexable; simpl; lia).
  split; [exact Hc|]. split; [exact Hg|].
  split; [exact (find_best_guess_singleton _ _ _ Hc Hg)|discriminate].
Defined.

Example all_codes_size :
  Z.of_nat (length ComputerGuessing.all_codes) = 5040%Z.
Proof. vm_compute. reflexivity. Qed.

Example is_valid_guess_doc :
  UserGuessing.is_valid_guess "1234" = true ∧
  UserGuessing.is_valid_guess "1122" = false.
Proof. split; vm_compute; reflexivity. Qed.

(** ** More on the scorer *)

Section ScorerEdges.
Import ComputerGuessing.

Lemma bulls_loop_short s g :
  length s < 4 ∨ length g < 4 →
  for_each bulls_step (range 4) (FbState s g 0 0) = None.
Proof.
  intros Hshort. unfold range.
  destruct s as [|a [|b [|c [|d s]]]]; destruct g as [|e [|f [|h [|i g]]]];
    simpl in Hshort; try lia;
    cbn; unfold bulls_step; cbn; repeat (case_decide; cbn); reflexivity.
Qed.

Lemma compute_feedback_short_None secret guess :
  ¬ (indexable secret ∧ indexable guess) →
  compute_feedback secret guess = None.
Proof.
  unfold indexable. rewrite <- !length_list_ascii_of_string. intros Hshort.
  unfold compute_feedback. rewrite bulls_loop_short; [done|]. lia.
Qed.

Lemma mark_bulls_all s : ∀ g,
  length s = length g →
  (mark_bulls s g).2 = Z.of_nat (length s) → s = g.
Proof.
  induction s as [|a s IH]; intros [|e g] Hlen Hall; try done.
  injection Hlen as Hlen. cbn [mark_bulls length] in Hall.
  pose proof (mark_bulls_bound s g) as [_ Hb].
  specialize (IH g Hlen). destruct (mark_bulls s g) as [[s' g'] n].
  cbn [fst snd] in *.
  destruct (decide (e = a)) as [->|Hne]; cbn [fst snd] in Hall.
  - f_equal. apply IH. lia.
  - lia.
Qed.

Lemma list_ascii_of_string_inj s1 s2 :
  list_ascii_of_string s1 = list_ascii_of_string s2 → s1 = s2.
Proof.
  intros Heq.
  rewrite <- (string_of_list_ascii_of_string s1),
          <- (string_of_list_ascii_of_string s2).
  by rewrite Heq.
Qed.

Lemma score_all_bulls s g c :
  length s = 4 → length g = 4 → score s g = (4%Z, c) → s = g.
Proof.
  intros Hs Hg. unfold score. rewrite !take_ge by lia.
  pose proof (mark_bulls_all s g) as Hall.
  destruct (mark_bulls s g) as [[s' g'] n]. cbn [fst snd] in *.
  intros [= -> _]. apply Hall; [lia|]. rewrite Hs. done.
Qed.
End ScorerEdges.

(** X1.  [compute_feedback] raises an [IndexError] exactly when the secret or
    the guess has fewer than four characters: it returns a feedback if and
    only if both are at least four characters long. *)
Theorem compute_feedback_raises secret guess :
  ComputerGuessing.compute_feedback secret guess = None
  ↔ ¬ (indexable secret ∧ indexable guess).
Proof.
  split.
  - intros Hnone [Hs Hg]. by rewrite compute_feedback_score in Hnone.
  - apply compute_feedback_short_None.
Qed.

Lemma compute_feedback_win secret guess cows :
  String.length secret = 4 → String.length guess = 4 →
  ComputerGuessing.compute_feedback secret guess = Some (4%Z, cows)
  ↔ secret = guess ∧ cows = 0%Z.
Proof.
  intros Hs Hg.
  rewrite compute_feedback_score by (unfold indexable; lia). split.
  - intros [= Hsc].
    assert (secret = guess) as <-.
    { apply list_ascii_of_string_inj.
      eapply score_all_bulls; [| |exact Hsc];
        by rewrite length_list_ascii_of_string. }
    rewrite score_self in Hsc by (rewrite length_list_ascii_of_string; lia).
    by injection Hsc as <-.
  - intros [<- ->]. f_equal. apply score_self.
    rewrite length_list_ascii_of_string. lia.
Qed.

(** X2.  For a secret and a guess of exactly four characters, the feedback
    has four bulls only when the guess is the secret, and then it has no
    cow: [(4, 0)] is returned exactly for the secret itself. *)
Theorem compute_feedback_four_bulls secret guess cows :
  String.length secret = 4 → String.length guess = 4 →
  ComputerGuessing.compute_feedback secret guess = Some (4%Z, cows)
  ↔ secret = guess ∧ cows = 0%Z.
Proof. apply compute_feedback_win. Qed.

Lemma compute_feedback_four_bulls_witness :
  String.length "1234" = 4 ∧ String.length "1243" = 4 ∧
  (ComputerGuessing.compute_feedback "1234" "1243" = Some (4%Z, 0%Z)
   ↔ "1234"%string = "1243"%string ∧ 0%Z = 0%Z).
Proof.
  split; [reflexivity|]. split; [reflexivity|].
  exact (compute_feedback_four_bulls "1234" "1243" 0 eq_refl eq_refl).
Defined.

Section Symmetry.
Import ComputerGuessing.

Lemma sum_Permutation (xs ys : list Z) : xs ≡ₚ ys → sum xs = sum ys.
Proof.
  induction 1 as [|x xs ys _ IH|x y xs|xs ys zs _ IH1 _ IH2].
  - done.
  - by rewrite !sum_cons, IH.
  - rewrite !sum_cons. lia.
  - congruence.
Qed.

Lemma sum_fmap_support (f : ascii → Z) ds :
  sum (f <$> ds) = sum (f <$> filter (λ d, f d ≠ 0%Z) ds).
Proof.
  induction ds as [|d ds IH]; [done|].
  rewrite fmap_cons, sum_cons, IH.
  destruct (decide (f d = 0%Z)) as [H0|H0].
  - rewrite filter_cons_False by (intros H; by apply H). lia.
  - rewrite filter_cons_True by done. by rewrite fmap_cons, sum_cons.
Qed.

(** A sum over a duplicate-free list only depends on the elements where the
    function is not zero. *)
Lemma sum_fmap_same_support (f : ascii → Z) ds ds' :
  NoDup ds → NoDup ds' →
  (∀ d, f d ≠ 0%Z → d ∈ ds ∧ d ∈ ds') →
  sum (f <$> ds) = sum (f <$> ds').
Proof.
  intros Hnd Hnd' Hsupp.
  rewrite (sum_fmap_support f ds), (sum_fmap_support f ds').
  apply sum_Permutation, fmap_Permutation, NoDup_Permutation.
  - by apply NoDup_filter.
  - by apply NoDup_filter.
  - intros d. rewrite !list_elem_of_filter. split; intros [Hf _];
      (split; [done|by apply Hsupp]).
Qed.

Lemma common_sym (s g : list ascii) :
  sum ((λ d, Z.min (count d s) (count d g))
         <$> elements (list_to_set g : gset ascii))
  = sum ((λ d, Z.min (count d g) (count d s))
           <$> elements (list_to_set s : gset ascii)).
Proof.
  rewrite (sum_fmap_ext (λ d, Z.min (count d g) (count d s))
             (λ d, Z.min (count d s) (count d g)))
    by (intros; apply Z.min_comm).
  apply sum_fmap_same_support; [apply NoDup_elements..|].
  intros d Hd. rewrite !elem_of_elements, !elem_of_list_to_set.
  split.
  - destruct (decide (d ∈ g)) as [|Hn]; [done|].
    rewrite (count_not_elem_of d g) in Hd by done.
    pose proof (count_nonneg d s). lia.
  - destruct (decide (d ∈ s)) as [|Hn]; [done|].
    rewrite (count_not_elem_of d s) in Hd by done.
    pose proof (count_nonneg d g). lia.
Qed.

Lemma bulls_zip_sym (s : list ascii) : ∀ g,
  sum ((λ sg, if decide (sg.1 = sg.2) then 1%Z else 0%Z) <$> zip s g)
  = sum ((λ sg, if decide (sg.1 = sg.2) then 1%Z else 0%Z) <$> zip g s).
Proof.
  induction s as [|a s IH]; intros [|e g]; try done.
  cbn [zip zip_with]. rewrite !fmap_cons, !sum_cons, IH. cbn [fst snd].
  destruct (decide (a = e)) as [->|Hne].
  - by rewrite decide_True.
  - by rewrite decide_False by (by intros ->).
Qed.
End Symmetry.

(** X3.  The counting scorer of the user-guessing program is symmetric:
    secret and guess can be exchanged, whatever the two strings are. *)
Theorem user_compute_feedback_sym secret guess :
  UserGuessing.compute_feedback secret guess
  = UserGuessing.compute_feedback guess secret.
Proof.
  unfold UserGuessing.compute_feedback.
  by rewrite bulls_zip_sym, common_sym.
Qed.

(** X4.  On 4-character digit strings the marking scorer of the
    computer-guessing program is symmetric as well: exchanging secret and
    guess gives the same bulls and the same cows. *)
Theorem compute_feedback_sym secret guess :
  digits4 secret → digits4 guess →
  ComputerGuessing.compute_feedback secret guess
  = ComputerGuessing.compute_feedback guess secret.
Proof.
  intros [Hs Hds] [Hg Hdg].
  rewrite !compute_feedback_score by (unfold indexable; lia). f_equal.
  rewrite !score_counting;
    rewrite ?length_list_ascii_of_string; try done;
    try (eapply Forall_impl; [eassumption|]; intros c; apply is_digit_plain).
  by rewrite bulls_zip_sym, common_sym.
Qed.

Lemma compute_feedback_sym_witness :
  digits4 "1122" ∧ digits4 "1211" ∧
  ComputerGuessing.compute_feedback "1122" "1211"
  = ComputerGuessing.compute_feedback "1211" "1122".
Proof.
  assert (digits4 "1122") as Hs by (split; [reflexivity|by repeat constructor]).
  assert (digits4 "1211") as Hg by (split; [reflexivity|by repeat constructor]).
  split; [exact Hs|]. split; [exact Hg|].
  exact (compute_feedback_sym _ _ Hs Hg).
Defined.

(** ** More on the candidate filter *)

Section FilterMore.
Import ComputerGuessing.

Lemma filter_loop_Some guess bulls cows possible_codes : ∀ filtered result,
  for_each (filter_step guess bulls cows) possible_codes filtered = Some result
  ↔ Forall (λ code, is_Some (compute_feedback code guess)) possible_codes ∧
    result = filtered ++ filter (consistent guess bulls cows) possible_codes.
Proof.
  induction possible_codes as [|code codes IH]; intros filtered result.
  - simpl. rewrite app_nil_r. split.
    + intros [= <-]. by split.
    + by intros [_ ->].
  - cbn [for_each]. rewrite Forall_cons.
    assert (filter_step guess bulls cows filtered code
            = match compute_feedback code guess with
              | Some _ =>
                  Some (filtered ++ filter (consistent guess bulls cows) [code])
              | None => None
              end) as ->.
    { unfold filter_step.
      destruct (compute_feedback code guess) as [[b c]|] eqn:Hfb; [|done].
      cbn [mbind option_bind].
      destruct (decide (b = bulls ∧ c = cows)) as [[-> ->]|Hbc].
      - by rewrite filter_cons_True.
      - rewrite filter_cons_False; [by rewrite app_nil_r|].
        unfold consistent. rewrite Hfb. intros [= -> ->]. by apply Hbc. }
    destruct (compute_feedback code guess) as [fb|] eqn:Hfb;
      cbn [mbind option_bind].
    + rewrite IH, <- (assoc_L (++)), <- (filter_app _ [code]).
      change ([code] ++ codes) with (code :: codes).
      split; intros [? ?]; (split; [|done]); [by split; [eexists|] | tauto].
    + split; [done|]. intros [[[? [=]] _] _].
Qed.

Lemma filter_codes_Some possible_codes guess bulls cows result :
  filter_codes possible_codes guess bulls cows = Some result
  ↔ Forall (λ code, is_Some (compute_feedback code guess)) possible_codes ∧
    result = filter (consistent guess bulls cows) possible_codes.
Proof. unfold filter_codes. by rewrite filter_loop_Some. Qed.

Lemma filter_consistent_idemp guess bulls cows (l : list string) :
  filter (consistent guess bulls cows) (filter (consistent guess bulls cows) l)
  = filter (consistent guess bulls cows) l.
Proof.
  induction l as [|code l IH]; [done|].
  destruct (decide (consistent guess bulls cows code)).
  - rewrite !filter_cons_True by done. by rewrite IH.
  - rewrite !filter_cons_False by done. apply IH.
Qed.

Lemma filter_consistent_comm g1 b1 c1 g2 b2 c2 (l : list string) :
  filter (consistent g2 b2 c2) (filter (consistent g1 b1 c1) l)
  = filter (consistent g1 b1 c1) (filter (consistent g2 b2 c2) l).
Proof.
  induction l as [|code l IH]; [done|].
  destruct (decide (consistent g1 b1 c1 code));
    destruct (decide (consistent g2 b2 c2 code));
    repeat first [rewrite filter_cons_True by done
                 |rewrite filter_cons_False by done]; by rewrite ?IH.
Qed.
End FilterMore.

(** X5.  [filter_codes] raises exactly when [compute_feedback] raises on one
    of the codes of the list; in particular the empty list is returned as
    it is, whatever the guess. *)
Theorem filter_codes_raises possible_codes guess bulls cows :
  ComputerGuessing.filter_codes possible_codes guess bulls cows = None
  ↔ ∃ code, code ∈ possible_codes ∧
            ComputerGuessing.compute_feedback code guess = None.
Proof.
  destruct (ComputerGuessing.filter_codes possible_codes guess bulls cows)
    as [result|] eqn:Hf.
  - apply filter_codes_Some in Hf as [Hall _]. split; [done|].
    intros (code & Hin & Hnone).
    apply (proj1 (Forall_forall _ _) Hall) in Hin as [fb Hfb]. congruence.
  - split; [intros _|done].
    destruct (decide (Exists
      (λ code, ComputerGuessing.compute_feedback code guess = None)
      possible_codes)) as [Hex|Hnex].
    + apply Exists_exists in Hex as (code & ? & ?). by exists code.
    + apply not_Exists_Forall in Hnex; [|intros ?; apply _].
      assert (ComputerGuessing.filter_codes possible_codes guess bulls cows
              = Some (filter (consistent guess bulls cows) possible_codes))
        as Hsome; [|congruence].
      apply filter_codes_Some. split; [|done].
      eapply Forall_impl; [exact Hnex|]. intros code Hc. simpl in Hc.
      by destruct (ComputerGuessing.compute_feedback code guess); [eexists|].
Qed.

(** X6.  Filtering is idempotent: filtering the result of [filter_codes]
    again with the same guess and feedback returns it unchanged. *)
Theorem filter_codes_idempotent possible_codes guess bulls cows filtered :
  ComputerGuessing.filter_codes possible_codes guess bulls cows = Some filtered →
  ComputerGuessing.filter_codes filtered guess bulls cows = Some filtered.
Proof.
  intros [Hall ->]%filter_codes_Some. apply filter_codes_Some. split.
  - apply Forall_forall. intros code [_ Hin]%list_elem_of_filter.
    by apply (proj1 (Forall_forall _ _) Hall).
  - by rewrite filter_consistent_idemp.
Qed.

Lemma filter_codes_idempotent_witness :
  ComputerGuessing.filter_codes ["1234"; "1243"; "4321"; "1432"] "1432" 2 2
  = Some ["1234"%string] ∧
  ComputerGuessing.filter_codes ["1234"] "1432" 2 2 = Some ["1234"%string].
Proof.
  assert (ComputerGuessing.filter_codes
            ["1234"; "1243"; "4321"; "1432"] "1432" 2 2
          = Some ["1234"%string]) as H by reflexivity.
  split; [exact H|]. exact (filter_codes_idempotent _ _ _ _ _ H).
Defined.

(** X7.  Two rounds of filtering commute: on codes and guesses of at least
    four characters, filtering by one guess and its feedback and then by
    another gives the same list as filtering in the other order. *)
Theorem filter_codes_commute possible_codes g1 b1 c1 g2 b2 c2 :
  Forall indexable possible_codes → indexable g1 → indexable g2 →
  (ComputerGuessing.filter_codes possible_codes g1 b1 c1
     ≫= λ l, ComputerGuessing.filter_codes l g2 b2 c2)
  = (ComputerGuessing.filter_codes possible_codes g2 b2 c2
       ≫= λ l, ComputerGuessing.filter_codes l g1 b1 c1).
Proof.
  intros Hwf H1 H2.
  assert (∀ g b c, Forall indexable (filter (consistent g b c) possible_codes))
    as Hsub.
  { intros g b c. apply Forall_forall. intros code [_ Hin]%list_elem_of_filter.
    by apply (proj1 (Forall_forall _ _) Hwf). }
  rewrite !filter_codes_filter by done. cbn [mbind option_bind].
  rewrite !filter_codes_filter by done.
  by rewrite filter_consistent_comm.
Qed.

Lemma filter_codes_commute_witness :
  Forall indexable ["1234"; "1243"; "4321"; "1432"]%string ∧
  indexable "1432" ∧ indexable "5678" ∧
  (ComputerGuessing.filter_codes ["1234"; "1243"; "4321"; "1432"] "1432" 2 2
     ≫= λ l, ComputerGuessing.filter_codes l "5678" 0 0)
  = (ComputerGuessing.filter_codes ["1234"; "1243"; "4321"; "1432"] "5678" 0 0
       ≫= λ l, ComputerGuessing.filter_codes l "1432" 2 2).
Proof.
  assert (Forall indexable ["1234"; "1243"; "4321"; "1432"]%string) as Hwf
    by (repeat constructor; unfold indexable; simpl; lia).
  assert (indexable "1432") as H1 by (unfold indexable; simpl; lia).
  assert (indexable "5678") as H2 by (unfold indexable; simpl; lia).
  split; [exact Hwf|]. split; [exact H1|]. split; [exact H2|].
  exact (filter_codes_commute _ _ 2%Z 2%Z _ 0%Z 0%Z Hwf H1 H2).
Defined.

(** X8.  After the feedback [(4, 0)] only the guess itself remains: on codes
    and a guess of exactly four characters, every code that
    [filter_codes] keeps for four bulls and no cow is the guess. *)
Theorem filter_codes_win possible_codes guess filtered :
  Forall (λ code, String.length code = 4) possible_codes →
  String.length guess = 4 →
  ComputerGuessing.filter_codes possible_codes guess 4 0 = Some filtered →
  filtered = filter (λ code, code = guess) possible_codes.
Proof.
  intros Hlen Hg [_ ->]%filter_codes_Some.
  induction Hlen as [|code codes Hc _ IH]; [done|].
  assert (consistent guess 4 0 code ↔ code = guess) as Hiff.
  { unfold consistent. rewrite (compute_feedback_win code guess 0 Hc Hg).
    tauto. }
  destruct (decide (code = guess)) as [Heq|Hne].
  - rewrite !filter_cons_True by tauto. by rewrite IH.
  - rewrite !filter_cons_False by tauto. done.
Qed.

Lemma filter_codes_win_witness :
  Forall (λ code, String.length code = 4) ["1234"; "1243"]%string ∧
  String.length "1234" = 4 ∧
  ComputerGuessing.filter_codes ["1234"; "1243"] "1234" 4 0
  = Some ["1234"%string] ∧
  ["1234"%string] = filter (λ code, code = "1234"%string) ["1234"; "1243"]%string.
Proof.
  assert (Forall (λ code, String.length code = 4) ["1234"; "1243"]%string)
    as Hlen by (by repeat constructor).
  assert (ComputerGuessing.filter_codes ["1234"; "1243"] "1234" 4 0
          = Some ["1234"%string]) as H by reflexivity.
  split; [exact Hlen|]. split; [reflexivity|]. split; [exact H|].
  exact (filter_codes_win _ "1234" _ Hlen eq_refl H).
Defined.

(** ** More on the entropy estimator *)

Section EntropyMore.
Import ComputerGuessing.
Local Open Scope R_scope.

Lemma plog2_upper_strict (v n : Z) :
  (1 ≤ v < n)%Z → plog2 v < IZR v * (ln (IZR n) / ln 2).
Proof.
  intros [Hv Hn]. unfold plog2. pose proof ln_2_pos as H2.
  assert (0 < IZR v) by (apply IZR_lt; lia).
  assert (ln (IZR v) < ln (IZR n)) as Hln.
  { apply ln_increasing; [done|]. apply IZR_lt. lia. }
  apply Rmult_lt_compat_l; [done|].
  apply Rmult_lt_compat_r; [|done]. by apply Rinv_0_lt_compat.
Qed.

Lemma Rsum_plog2_upper_strict (vs : list Z) (n : Z) :
  vs ≠ [] → Forall (λ v, 1 ≤ v < n)%Z vs →
  Rsum (plog2 <$> vs) < IZR (sum vs) * (ln (IZR n) / ln 2).
Proof.
  intros Hne Hvs. induction Hvs as [|v vs Hv Hvs IH]; [done|].
  rewrite fmap_cons, Rsum_cons, sum_cons, plus_IZR.
  pose proof (plog2_upper_strict v n Hv).
  destruct vs as [|v' vs'].
  - simpl. unfold sum. simpl. lra.
  - assert (v' :: vs' ≠ []) as Hne' by done. specialize (IH Hne'). lra.
Qed.

Lemma count_all {A} `{EqDecision A} (x : A) (l : list A) :
  (∀ y, y ∈ l → y = x) → count x l = Z.of_nat (length l).
Proof.
  induction l as [|a l IH]; intros Hall; [done|].
  rewrite count_cons, IH.
  - rewrite decide_True; [simpl; lia|]. symmetry. apply Hall. by left.
  - intros y Hy. apply Hall. by right.
Qed.

Lemma count_lt_length {A} `{EqDecision A} (x y : A) (l : list A) :
  y ∈ l → y ≠ x → (count x l < Z.of_nat (length l))%Z.
Proof.
  intros Hy Hne. unfold count.
  pose proof (length_filter_lt (x =.) l y Hy) as Hlt.
  assert (length (filter (x =.) l) < length l)%nat; [|lia].
  apply Hlt. by intros ->.
Qed.

Section Classes.
Context (possible_codes : list string) (guess : string).
Context (Hne : possible_codes ≠ []).

#[local] Abbreviation fbs := (feedbacks possible_codes guess).

(** One feedback class: no information. *)
Lemma entropy_value_alike :
  (∀ x y, x ∈ fbs → y ∈ fbs → x = y) →
  entropy_value possible_codes guess = 0.
Proof.
  intros Halike. unfold entropy_value, entropy_ceiling.
  assert (0 < INR (length possible_codes)) as Hn by (by apply candidates_pos).
  assert (Forall (λ v, v = Z.of_nat (length possible_codes))
            (dict_values (tally fbs))) as Hall.
  { apply Forall_forall. intros v Hv.
    apply list_elem_of_fmap in Hv as ([k v'] & -> & Hin).
    apply tally_entry in Hin as [Hk ->]. cbn [snd].
    rewrite <- (length_feedbacks possible_codes guess).
    apply count_all. intros y Hy. by apply Halike. }
  pose proof (tally_total fbs) as Htot. rewrite length_feedbacks in Htot.
  assert (dict_values (tally fbs) = [Z.of_nat (length possible_codes)]) as ->.
  { destruct (dict_values (tally fbs)) as [|v vs].
    - unfold sum in Htot. simpl in Htot.
      apply (f_equal IZR) in Htot. rewrite <- INR_IZR_INZ in Htot. simpl in Htot.
      lra.
    - apply Forall_cons in Hall as [-> Hall]. f_equal.
      rewrite sum_cons in Htot. destruct vs as [|v' vs']; [done|].
      apply Forall_cons in Hall as [-> Hall]. rewrite sum_cons in Htot.
      assert (0 ≤ sum vs')%Z.
      { clear -Hall. induction Hall as [|v vs -> _ IH]; [done|].
        rewrite sum_cons. lia. }
      assert (0 < Z.of_nat (length possible_codes))%Z; [|lia].
      apply lt_IZR. by rewrite <- INR_IZR_INZ. }
  cbn [fmap list_fmap Rsum foldr]. unfold plog2.
  rewrite <- INR_IZR_INZ. pose proof ln_2_pos. field. split; lra.
Qed.

(** Two feedback classes: the guess is worth something. *)
Lemma entropy_value_split x y :
  x ∈ fbs → y ∈ fbs → x ≠ y →
  0 < entropy_value possible_codes guess.
Proof.
  intros Hx Hy Hxy. unfold entropy_value, entropy_ceiling.
  assert (0 < INR (length possible_codes)) as Hn by (by apply candidates_pos).
  assert (Forall (λ v, 1 ≤ v < Z.of_nat (length possible_codes))%Z
            (dict_values (tally fbs))) as Hvs.
  { apply Forall_forall. intros v Hv.
    apply list_elem_of_fmap in Hv as ([k v'] & -> & Hin).
    apply tally_entry in Hin as [Hk ->]. cbn [snd]. split.
    - by apply count_elem_of.
    - rewrite <- (length_feedbacks possible_codes guess).
      destruct (decide (x = k)) as [->|Hxk].
      + by apply (count_lt_length k y).
      + by apply (count_lt_length k x). }
  assert (dict_values (tally fbs) ≠ []) as Hnil.
  { intros Hnil. pose proof (tally_total fbs) as Htot.
    rewrite Hnil, length_feedbacks in Htot. unfold sum in Htot. simpl in Htot.
    apply (f_equal IZR) in Htot. rewrite <- INR_IZR_INZ in Htot. simpl in Htot.
    lra. }
  pose proof (Rsum_plog2_upper_strict _ _ Hnil Hvs) as Hup.
  rewrite tally_total, length_feedbacks, <- !INR_IZR_INZ in Hup.
  set (S := Rsum _) in *. set (L := ln _ / ln 2) in *.
  assert (S / INR (length possible_codes) < L); [|lra].
  apply (Rmult_lt_reg_r (INR (length possible_codes))); [done|].
  unfold Rdiv at 1. rewrite Rmult_assoc, Rinv_l by lra. lra.
Qed.

Lemma entropy_value_zero :
  entropy_value possible_codes guess = 0
  ↔ ∀ x y, x ∈ fbs → y ∈ fbs → x = y.
Proof.
  split; [|apply entropy_value_alike].
  intros H0 x y Hx Hy. destruct (decide (x = y)) as [|Hxy]; [done|].
  pose proof (entropy_value_split x y Hx Hy Hxy). lra.
Qed.
End Classes.

Lemma feedbacks_elem_of possible_codes guess fb :
  Forall indexable possible_codes → indexable guess →
  fb ∈ feedbacks possible_codes guess
  ↔ ∃ code, code ∈ possible_codes ∧ compute_feedback code guess = Some fb.
Proof.
  intros Hwf Hg. unfold feedbacks. rewrite list_elem_of_fmap. split.
  - intros (code & -> & Hin). exists code. split; [done|].
    apply compute_feedback_score; [|done].
    by apply (proj1 (Forall_forall _ _) Hwf).
  - intros (code & Hin & Hfb). exists code. split; [|done].
    rewrite compute_feedback_score in Hfb; [congruence| |done].
    by apply (proj1 (Forall_forall _ _) Hwf).
Qed.

(** A guess of positive entropy leaves, for every feedback, strictly fewer
    candidates. *)
Lemma positive_entropy_shrinks possible_codes guess bulls cows :
  possible_codes ≠ [] →
  Forall indexable possible_codes → indexable guess →
  0 < entropy_value possible_codes guess →
  (length (filter (consistent guess bulls cows) possible_codes)
   < length possible_codes)%nat.
Proof.
  intros Hne Hwf Hg Hpos.
  destruct (decide (Forall (consistent guess bulls cows) possible_codes))
    as [Hall|Hnot].
  - exfalso. rewrite (entropy_value_alike possible_codes guess Hne) in Hpos; [lra|].
    intros x y (cx & Hcx & Hx)%feedbacks_elem_of (cy & Hcy & Hy)%feedbacks_elem_of;
      try done.
    apply (proj1 (Forall_forall _ _) Hall) in Hcx, Hcy.
    unfold consistent in *. congruence.
  - apply not_Forall_Exists in Hnot; [|intros ?; apply _].
    apply Exists_exists in Hnot as (code & Hin & Hcode).
    by apply (length_filter_lt _ _ code).
Qed.
End EntropyMore.

(** X9.  On codes and a guess of at least four characters,
    [calculate_entropy] returns a value that is never negative (0.0 for the
    empty list), and it is zero exactly when all the candidates score alike
    against the guess.  Floats are read as real numbers. *)
Theorem calculate_entropy_zero possible_codes guess :
  Forall indexable possible_codes → indexable guess →
  ∃ entropy,
    ComputerGuessing.calculate_entropy possible_codes guess = Some entropy ∧
    (0 <= entropy)%R ∧
    (entropy = 0%R ↔
     ∀ code code', code ∈ possible_codes → code' ∈ possible_codes →
       ComputerGuessing.compute_feedback code guess
       = ComputerGuessing.compute_feedback code' guess).
Proof.
  intros Hwf Hg. destruct (decide (possible_codes = [])) as [->|Hne].
  - exists 0%R. split_and!; [done|lra|].
    split; [|done]. by intros _ code code' ?%elem_of_nil.
  - exists (entropy_value possible_codes guess). split_and!.
    + by apply calculate_entropy_value.
    + by apply entropy_value_nonneg.
    + rewrite entropy_value_zero by done. split.
      * intros Halike code code' Hin Hin'.
        assert (indexable code ∧ indexable code') as [Hc Hc'].
        { split; by apply (proj1 (Forall_forall _ _) Hwf). }
        rewrite !compute_feedback_score by done. f_equal.
        apply Halike; apply list_elem_of_fmap; by eexists.
      * intros Halike x y (cx & Hcx & Hx)%feedbacks_elem_of
          (cy & Hcy & Hy)%feedbacks_elem_of; try done.
        specialize (Halike cx cy Hcx Hcy). congruence.
Qed.

Lemma calculate_entropy_zero_witness :
  Forall indexable ["1234"; "1243"]%string ∧ indexable "5678" ∧
  ∃ entropy,
    ComputerGuessing.calculate_entropy ["1234"; "1243"] "5678" = Some entropy ∧
    (0 <= entropy)%R ∧
    (entropy = 0%R ↔
     ∀ code code', code ∈ ["1234"; "1243"]%string →
       code' ∈ ["1234"; "1243"]%string →
       ComputerGuessing.compute_feedback code "5678"
       = ComputerGuessing.compute_feedback code' "5678").
Proof.
  assert (Forall indexable ["1234"; "1243"]%string) as Hwf
    by (repeat constructor; unfold indexable; simpl; lia).
  assert (indexable "5678") as Hg by (unfold indexable; simpl; lia).
  split; [exact Hwf|]. split; [exact Hg|].
  exact (calculate_entropy_zero _ _ Hwf Hg).
Defined.

(** X10.  A guess whose entropy is positive always narrows the candidates:
    when [calculate_entropy] returns a positive value for a guess, then for
    every feedback pair [filter_codes] with that guess returns strictly
    fewer codes than it was given.  Floats are read as real numbers. *)
Theorem positive_entropy_narrows possible_codes guess entropy bulls cows :
  Forall indexable possible_codes → indexable guess →
  ComputerGuessing.calculate_entropy possible_codes guess = Some entropy →
  (0 < entropy)%R →
  ∃ filtered,
    ComputerGuessing.filter_codes possible_codes guess bulls cows
    = Some filtered ∧
    length filtered < length possible_codes.
Proof.
  intros Hwf Hg Hent Hpos.
  assert (possible_codes ≠ []) as Hne.
  { intros ->. injection Hent as <-. lra. }
  rewrite calculate_entropy_value in Hent by done. injection Hent as <-.
  eexists. split; [by apply filter_codes_filter|].
  by apply positive_entropy_shrinks.
Qed.

Lemma positive_entropy_narrows_witness :
  Forall indexable ["1234"; "1243"]%string ∧ indexable "1234" ∧
  ComputerGuessing.calculate_entropy ["1234"; "1243"] "1234" = Some 1%R ∧
  (0 < 1)%R ∧
  ∃ filtered,
    ComputerGuessing.filter_codes ["1234"; "1243"] "1234" 2 2 = Some filtered ∧
    length filtered < length ["1234"; "1243"]%string.
Proof.
  assert (Forall indexable ["1234"; "1243"]%string) as Hwf
    by (repeat constructor; unfold indexable; simpl; lia).
  assert (indexable "1234") as Hg by (unfold indexable; simpl; lia).
  assert (0 < 1)%R as Hpos by lra.
  split; [exact Hwf|]. split; [exact Hg|].
  split; [exact calculate_entropy_one_bit|]. split; [exact Hpos|].
  exact (positive_entropy_narrows _ _ _ 2%Z 2%Z Hwf Hg
           calculate_entropy_one_bit Hpos).
Defined.

Section Progress.
Import ComputerGuessing.
Local Open Scope R_scope.

(** Among candidates that contain two different codes, a guess that is one
    of them has positive entropy. *)
Lemma candidate_guess_positive possible_codes c1 c2 :
  Forall (λ code, String.length code = 4%nat) possible_codes →
  c1 ∈ possible_codes → c2 ∈ possible_codes → c1 ≠ c2 →
  0 < entropy_value possible_codes c1.
Proof.
  intros Hlen H1 H2 Hne.
  assert (∀ c, c ∈ possible_codes → String.length c = 4%nat) as Hl.
  { intros c. by apply (proj1 (Forall_forall _ _) Hlen). }
  assert (possible_codes ≠ []) as Hnil.
  { intros ->. by apply elem_of_nil in H1. }
  apply (entropy_value_split possible_codes c1 Hnil
           (score (list_ascii_of_string c1) (list_ascii_of_string c1))
           (score (list_ascii_of_string c2) (list_ascii_of_string c1))).
  - apply list_elem_of_fmap. by eexists.
  - apply list_elem_of_fmap. by eexists.
  - rewrite score_self by (rewrite length_list_ascii_of_string, Hl; [lia|done]).
    intros Heq. apply Hne. symmetry. apply list_ascii_of_string_inj.
    eapply (score_all_bulls _ _ 0%Z);
      [by rewrite length_list_ascii_of_string, Hl..|done].
Qed.

Lemma find_best_guess_positive possible_codes all_codes c1 c2 :
  Forall (λ code, String.length code = 4%nat) possible_codes →
  Forall (λ code, String.length code = 4%nat) all_codes →
  c1 ∈ possible_codes → c2 ∈ possible_codes → c1 ≠ c2 → c1 ∈ all_codes →
  ∃ g e,
    find_best_guess possible_codes all_codes = Some (g, e) ∧
    g ∈ all_codes ∧ e = entropy_value possible_codes g ∧ 0 < e.
Proof.
  intros Hlen Hall H1 H2 Hne Hin.
  assert (∀ l, Forall (λ code, String.length code = 4%nat) l →
               Forall indexable l) as Hidx.
  { intros l Hl. eapply Forall_impl; [exact Hl|].
    intros c Hc. unfold indexable. simpl in Hc. lia. }
  assert (possible_codes ≠ []) as Hnil.
  { intros ->. by apply elem_of_nil in H1. }
  assert (all_codes ≠ []) as Hnil'.
  { intros ->. by apply elem_of_nil in Hin. }
  destruct (find_best_guess_first_max possible_codes Hnil (Hidx _ Hlen)
              all_codes (Hidx _ Hall) Hnil')
    as (k & g & e & Hfbg & _ & Hk & He & Hmax).
  assert (indexable g) as Hg.
  { apply (proj1 (Forall_forall _ _) (Hidx _ Hall)).
    by eapply list_elem_of_lookup_2. }
  assert (indexable c1) as Hc1.
  { by apply (proj1 (Forall_forall _ _) (Hidx _ Hall)). }
  exists g, e. split_and!; [done|by eapply list_elem_of_lookup_2| |].
  - rewrite calculate_entropy_value in He by auto. by injection He.
  - apply list_elem_of_lookup in Hin as [j Hj].
    destruct (Hmax j c1 (entropy_value possible_codes c1) Hj) as [Hle _].
    { apply calculate_entropy_value; auto. }
    pose proof (candidate_guess_positive possible_codes c1 c2 Hlen H1 H2 Hne).
    lra.
Qed.
End Progress.



(** ** The list of all codes and the valid guesses *)

Section Permutations.
Context {A : Type}.
Implicit Types (pool l : list A).

Lemma picks_elem_of pool x rest :
  (x, rest) ∈ picks pool ↔ ∃ l1 l2, pool = l1 ++ x :: l2 ∧ rest = l1 ++ l2.
Proof.
  revert rest. induction pool as [|a pool IH]; intros rest; simpl.
  - split; [by intros ?%elem_of_nil|]. intros ([|??] & ? & ? & _); done.
  - rewrite elem_of_cons, list_elem_of_fmap. split.
    + intros [[= -> ->]|([y rest'] & [= -> ->] & Hin)].
      * by exists [], pool.
      * apply IH in Hin as (l1 & l2 & -> & ->). by exists (a :: l1), l2.
    + intros ([|b l1] & l2 & Heq & ->); simplify_eq/=.
      * by left.
      * right. exists (x, l1 ++ l2). split; [done|]. apply IH. by exists l1, l2.
Qed.

Lemma picks_fst pool p : p ∈ picks pool → p.1 ∈ pool.
Proof.
  destruct p as [x rest]. intros (l1 & l2 & -> & _)%picks_elem_of.
  apply elem_of_app. right. by left.
Qed.

Lemma picks_NoDup_rest pool p :
  NoDup pool → p ∈ picks pool → NoDup p.2 ∧ p.1 ∉ p.2.
Proof.
  destruct p as [x rest]. intros Hnd (l1 & l2 & -> & ->)%picks_elem_of.
  apply NoDup_app in Hnd as (H1 & H12 & [Hx H2]%NoDup_cons). simpl. split.
  - apply NoDup_app. split_and!; [done| |done].
    intros y Hy Hy2. apply (H12 y Hy). by right.
  - intros [Hin|Hin]%elem_of_app; [|done]. apply (H12 x Hin). by left.
Qed.

Lemma picks_inj pool p1 p2 :
  NoDup pool → p1 ∈ picks pool → p2 ∈ picks pool → p1.1 = p2.1 → p1 = p2.
Proof.
  intros Hnd. revert p1 p2. induction pool as [|a pool IH]; intros p1 p2; simpl.
  - by intros ?%elem_of_nil.
  - apply NoDup_cons in Hnd as [Ha Hnd].
    rewrite !elem_of_cons, !list_elem_of_fmap.
    intros [->|(q1 & -> & Hq1)] [->|(q2 & -> & Hq2)]; simpl; intros Heq.
    + done.
    + apply picks_fst in Hq2. congruence.
    + apply picks_fst in Hq1. congruence.
    + by rewrite (IH Hnd q1 q2).
Qed.

Lemma picks_NoDup pool : NoDup pool → NoDup (picks pool).
Proof.
  induction 1 as [|a pool Ha Hnd IH]; simpl; [constructor|].
  apply NoDup_cons. split.
  - intros (q & [= -> _] & Hq%picks_fst)%list_elem_of_fmap. done.
  - apply NoDup_fmap_2_strong; [|done].
    intros [x1 r1] [x2 r2] _ _ [= -> ->]. done.
Qed.

(** The arrangements of [r] elements of a duplicate-free pool are the
    duplicate-free lists of length [r] over the pool. *)
Lemma permutations_elem_of r : ∀ pool l,
  NoDup pool →
  l ∈ permutations pool r ↔ length l = r ∧ NoDup l ∧ ∀ x, x ∈ l → x ∈ pool.
Proof.
  induction r as [|r IH]; intros pool l Hnd; simpl.
  - rewrite list_elem_of_singleton. split.
    + intros ->. split_and!; [done|constructor|by intros ? ?%elem_of_nil].
    + intros [Hlen _]. by destruct l.
  - rewrite list_elem_of_bind. split.
    + intros (p & Hl & Hp). apply list_elem_of_fmap in Hl as (l' & -> & Hl').
      destruct (picks_NoDup_rest pool p Hnd Hp) as [Hrest Hnotin].
      apply IH in Hl' as (Hlen & Hnd' & Hsub); [|done].
      assert (∀ x, x ∈ p.2 → x ∈ pool) as Hrp.
      { destruct p as [y rest]. apply picks_elem_of in Hp as (l1 & l2 & -> & ->).
        intros x [?|?]%elem_of_app; apply elem_of_app; [by left|right; by right]. }
      split_and!.
      * simpl. by rewrite Hlen.
      * apply NoDup_cons. split; [|done]. intros Hin. by apply Hnotin, Hsub.
      * intros x [->|Hx]%elem_of_cons; [by apply picks_fst|]. by apply Hrp, Hsub.
    + intros (Hlen & Hnd' & Hsub). destruct l as [|x l']; [done|].
      apply NoDup_cons in Hnd' as [Hx Hnd'].
      destruct (list_elem_of_split pool x) as (l1 & l2 & ->).
      { apply Hsub. by left. }
      exists (x, l1 ++ l2). split.
      * apply list_elem_of_fmap. exists l'. split; [done|].
        assert ((x, l1 ++ l2) ∈ picks (l1 ++ x :: l2)) as Hp.
        { apply picks_elem_of. by exists l1, l2. }
        destruct (picks_NoDup_rest _ _ Hnd Hp) as [Hrest _].
        apply IH; [done|]. split_and!; [by injection Hlen|done|].
        intros y Hy. assert (y ∈ l1 ++ x :: l2) as Hin by (apply Hsub; by right).
        apply elem_of_app in Hin as [?|[->|?]%elem_of_cons];
          [apply elem_of_app; by left|done|apply elem_of_app; by right].
      * apply picks_elem_of. by exists l1, l2.
Qed.

Lemma permutations_NoDup r : ∀ pool, NoDup pool → NoDup (permutations pool r).
Proof.
  induction r as [|r IH]; intros pool Hnd; simpl; [apply NoDup_singleton|].
  apply NoDup_bind.
  - intros p1 p2 l Hp1 Hp2 (l1 & -> & _)%list_elem_of_fmap
      (l2 & [= Heq _] & _)%list_elem_of_fmap.
    by apply (picks_inj pool).
  - intros p Hp. apply NoDup_fmap_2; [by intros ?? [=]|].
    apply IH. by apply (picks_NoDup_rest pool p).
  - by apply picks_NoDup.
Qed.
End Permutations.

Section Codes.
Import ComputerGuessing.

Lemma is_digit_decimal c :
  is_digit c = true ↔ c ∈ list_ascii_of_string "0123456789".
Proof.
  split.
  - destruct c as [[] [] [] [] [] [] [] []]; intros Hd;
      first [discriminate Hd | apply (bool_decide_unpack _); vm_compute; exact I].
  - intros Hin. simpl in Hin.
    repeat (apply elem_of_cons in Hin as [->|Hin]; [reflexivity|]).
    by apply elem_of_nil in Hin.
Qed.

Lemma all_codes_elem_of code :
  code ∈ all_codes
  ↔ String.length code = 4 ∧ NoDup (list_ascii_of_string code) ∧
    Forall (λ c, is_digit c = true) (list_ascii_of_string code).
Proof.
  unfold all_codes. rewrite list_elem_of_fmap.
  assert (NoDup (list_ascii_of_string "0123456789")) as Hnd.
  { apply (bool_decide_unpack _). vm_compute. exact I. }
  split.
  - intros (l & -> & Hl). apply permutations_elem_of in Hl as (Hlen & Hl & Hsub);
      [|done].
    rewrite <- length_list_ascii_of_string, list_ascii_of_string_of_list_ascii.
    split_and!; [done..|]. apply Forall_forall. intros c Hc.
    by apply is_digit_decimal, Hsub.
  - intros (Hlen & Hl & Hd). exists (list_ascii_of_string code).
    split; [by rewrite string_of_list_ascii_of_string|].
    apply permutations_elem_of; [done|].
    split_and!; [by rewrite length_list_ascii_of_string|done|].
    intros c Hc. apply is_digit_decimal.
    by apply (proj1 (Forall_forall _ _) Hd).
Qed.

Lemma all_codes_NoDup : NoDup all_codes.
Proof.
  unfold all_codes. apply NoDup_fmap_2_strong.
  - intros l1 l2 _ _ Heq.
    rewrite <- (list_ascii_of_string_of_list_ascii l1),
            <- (list_ascii_of_string_of_list_ascii l2).
    by rewrite Heq.
  - apply permutations_NoDup. apply (bool_decide_unpack _). vm_compute. exact I.
Qed.

Lemma size_list_to_set_le (l : list ascii) :
  size (list_to_set l : gset ascii) ≤ length l.
Proof.
  induction l as [|x l IH]; [done|]. rewrite list_to_set_cons. simpl.
  rewrite size_union_alt, size_singleton.
  assert (size (list_to_set l ∖ {[x]} : gset ascii)
          ≤ size (list_to_set l : gset ascii)); [|lia].
  apply subseteq_size. intros y [Hy _]%elem_of_difference. exact Hy.
Qed.

Lemma size_list_to_set_NoDup (l : list ascii) :
  size (list_to_set l : gset ascii) = length l ↔ NoDup l.
Proof.
  split; [|apply size_list_to_set].
  induction l as [|x l IH]; [constructor|]. rewrite list_to_set_cons. simpl.
  intros Hsize. pose proof (size_list_to_set_le l) as Hle.
  destruct (decide (x ∈ l)) as [Hin|Hin].
  - exfalso.
    assert ({[x]} ∪ list_to_set l = (list_to_set l : gset ascii)) as Heq.
    { apply leibniz_equiv. intros y.
      rewrite elem_of_union, elem_of_singleton, elem_of_list_to_set.
      split; [intros [->|?]; done|by right]. }
    rewrite Heq in Hsize. lia.
  - apply NoDup_cons. split; [done|]. apply IH.
    rewrite size_union, size_singleton in Hsize
      by (apply disjoint_singleton_l; by rewrite elem_of_list_to_set).
    lia.
Qed.

Lemma forallb_Forall {X} (f : X → bool) (l : list X) :
  forallb f l = true ↔ Forall (λ x, f x = true) l.
Proof.
  induction l as [|x l IH]; simpl.
  - split; [constructor|done].
  - rewrite andb_true_iff, Forall_cons, IH. done.
Qed.

Lemma is_valid_guess_spec guess :
  UserGuessing.is_valid_guess guess = true
  ↔ String.length guess = 4 ∧
    Forall (λ c, char_isdigit c = true) (list_ascii_of_string guess) ∧
    NoDup (list_ascii_of_string guess).
Proof.
  unfold UserGuessing.is_valid_guess, isdigit.
  rewrite !andb_true_iff, !Nat.eqb_eq, negb_true_iff, Nat.eqb_neq,
    forallb_Forall.
  split.
  - intros [[Hlen [_ Hd]] Hsize]. split_and!; [done|done|].
    apply size_list_to_set_NoDup.
    by rewrite Hsize, length_list_ascii_of_string.
  - intros (Hlen & Hd & Hnd). split_and!; [done|lia|done|].
    apply size_list_to_set_NoDup in Hnd.
    by rewrite Hnd, length_list_ascii_of_string.
Qed.

Lemma is_digit_char_isdigit c : is_digit c = true → char_isdigit c = true.
Proof.
  unfold is_digit, char_isdigit. intros ->. done.
Qed.
End Codes.

(** ** The game loop *)

Section Game.
Import ComputerGuessing.

Context (codes : list string).
Context (Hlen : Forall (λ code, String.length code = 4) codes).
Context (Hnd : NoDup codes).

#[local] Abbreviation in_game := (game_state codes).

Lemma in_game_facts possible_codes guess :
  in_game possible_codes guess →
  Forall (λ code, String.length code = 4) possible_codes ∧
  NoDup possible_codes ∧
  (∀ code, code ∈ possible_codes → code ∈ codes) ∧
  guess ∈ codes ∧ String.length guess = 4 ∧
  ∀ bulls cows,
    length (filter (consistent guess bulls cows) possible_codes)
    < length possible_codes.
Proof.
  intros (Hsub & Hsize & e & Hfbg).
  assert (∀ code, code ∈ possible_codes → code ∈ codes) as Hin.
  { intros code Hc. by eapply elem_of_sublist. }
  assert (Forall (λ code, String.length code = 4) possible_codes) as Hl.
  { apply Forall_forall. intros code Hc.
    by apply (proj1 (Forall_forall _ _) Hlen), Hin. }
  assert (NoDup possible_codes) as Hnd' by (by eapply sublist_NoDup).
  destruct possible_codes as [|c1 [|c2 rest]] eqn:Hpc; simpl in Hsize; try lia.
  rewrite <- Hpc in *.
  assert (c1 ∈ possible_codes) as H1 by (rewrite Hpc; by left).
  assert (c2 ∈ possible_codes) as H2 by (rewrite Hpc; right; by left).
  assert (c1 ≠ c2) as Hne.
  { intros ->. rewrite Hpc in Hnd'. apply NoDup_cons in Hnd' as [Hn _].
    apply Hn. by left. }
  destruct (find_best_guess_positive possible_codes codes c1 c2 Hl Hlen H1 H2
              Hne (Hin _ H1)) as (g & e' & Hfbg' & Hg & -> & Hpos).
  rewrite Hfbg in Hfbg'. injection Hfbg' as <- ->.
  assert (String.length guess = 4) as Hgl.
  { by apply (proj1 (Forall_forall _ _) Hlen). }
  split_and!; [done..|]. intros bulls cows.
  apply positive_entropy_shrinks; [by rewrite Hpc| |unfold indexable; lia|done].
  eapply Forall_impl; [exact Hl|]. intros c Hc. unfold indexable. simpl in Hc. lia.
Qed.

(** What the loop does with one accepted feedback. *)
Lemma in_game_round possible_codes guess bulls cows :
  in_game possible_codes guess →
  ∃ filtered,
    filter_codes possible_codes guess bulls cows = Some filtered ∧
    filtered = filter (consistent guess bulls cows) possible_codes ∧
    length filtered < length possible_codes ∧
    (2 ≤ length filtered →
     ∃ guess' e, find_best_guess filtered codes = Some (guess', e) ∧
                 in_game filtered guess').
Proof.
  intros Hin. pose proof Hin as (Hsub & Hsize & e & Hfbg).
  destruct (in_game_facts _ _ Hin) as (Hl & Hnd' & Hmem & Hg & Hgl & Hshrink).
  assert (∀ l, Forall (λ code, String.length code = 4) l →
               Forall indexable l) as Hidx.
  { intros l Hl'. eapply Forall_impl; [exact Hl'|].
    intros c Hc. unfold indexable. simpl in Hc. lia. }
  exists (filter (consistent guess bulls cows) possible_codes).
  split_and!; [|done|done|].
  - apply filter_codes_filter; [auto|]. unfold indexable. lia.
  - intros Hsize'.
    set (filtered := filter (consistent guess bulls cows) possible_codes) in *.
    assert (filtered `sublist_of` codes) as Hsub'.
    { etrans; [apply sublist_filter|done]. }
    assert (Forall (λ code, String.length code = 4) filtered) as Hl'.
    { apply Forall_forall. intros code Hc.
      apply (proj1 (Forall_forall _ _) Hlen). by eapply elem_of_sublist. }
    assert (filtered ≠ []) as Hne by (intros Heq; rewrite Heq in Hsize'; simpl in Hsize'; lia).
    assert (codes ≠ []) as Hne'.
    { intros ->. by apply elem_of_nil in Hg. }
    destruct (find_best_guess_first_max filtered Hne (Hidx _ Hl') codes
                (Hidx _ Hlen) Hne') as (k & g' & e' & Hfbg' & _).
    exists g', e'. split; [done|]. split_and!; [done|done|by exists e'].
Qed.

Lemma feedback_loop_safe inputs : ∀ possible_codes attempts guess,
  in_game possible_codes guess →
  (feedback_loop codes inputs possible_codes attempts guess).2 ≠ Raised ∧
  Forall (λ x, (attempts ≤ x.1.1
                ≤ attempts + Z.of_nat (length possible_codes) - 2)%Z ∧
               x.1.2 ∈ codes)
    (feedback_loop codes inputs possible_codes attempts guess).1.
Proof.
  induction inputs as [|line rest IH]; intros possible_codes attempts guess Hin.
  - simpl. split; [done|constructor].
  - pose proof Hin as (_ & Hsize & _).
    destruct (in_game_facts _ _ Hin) as (_ & _ & _ & Hg & _).
    assert ((attempts ≤ attempts
             ≤ attempts + Z.of_nat (length possible_codes) - 2)%Z) as Hhere by lia.
    cbn [feedback_loop]. destruct line as [|bulls cows|].
    + simpl. split; [done|].
      constructor; [split; [exact Hhere|exact Hg]|constructor].
    + destruct (valid_feedback bulls cows).
      * destruct (in_game_round _ _ bulls cows Hin)
          as (filtered & -> & _ & Hshrink & Hnext).
        destruct filtered as [|c1 [|c2 filtered]].
        -- simpl. split; [done|].
           constructor; [split; [exact Hhere|exact Hg]|constructor].
        -- simpl. split; [done|].
           constructor; [split; [exact Hhere|exact Hg]|constructor].
        -- destruct Hnext as (guess' & e & -> & Hin'); [simpl; lia|].
           destruct (IH _ (attempts + 1)%Z _ Hin') as [Hsafe Hall].
           destruct (feedback_loop codes rest _ _ _) as [exchanges e'].
           simpl in *. split; [done|].
           constructor; [split; [exact Hhere|exact Hg]|].
           eapply Forall_impl; [exact Hall|]. intros [[m g] r] [Hm ?]. simpl in *.
           split; [lia|done].
      * destruct (IH _ attempts _ Hin) as [Hsafe Hall].
        destruct (feedback_loop codes rest _ _ _) as [exchanges e'].
        simpl in *. split; [done|].
        constructor; [split; [exact Hhere|exact Hg]|done].
    + destruct (IH _ attempts _ Hin) as [Hsafe Hall].
      destruct (feedback_loop codes rest _ _ _) as [exchanges e'].
      simpl in *. split; [done|].
      constructor; [split; [exact Hhere|exact Hg]|done].
Qed.

Lemma feedback_loop_honest secret inputs : ∀ possible_codes attempts guess,
  in_game possible_codes guess →
  secret ∈ possible_codes →
  Forall (honest secret)
    (feedback_loop codes inputs possible_codes attempts guess).1 →
  found secret (feedback_loop codes inputs possible_codes attempts guess).
Proof.
  induction inputs as [|line rest IH];
    intros possible_codes attempts guess Hin Hsecret.
  - by intros _.
  - cbn [feedback_loop]. destruct line as [|bulls cows|].
    + simpl. intros [Hh _]%Forall_cons. unfold honest in Hh. simpl in Hh.
      subst guess. unfold found. simpl. by exists [].
    + destruct (valid_feedback bulls cows).
      * destruct (in_game_round _ _ bulls cows Hin)
          as (filtered & -> & Hf & Hshrink & Hnext).
        assert (∀ l, Forall (honest secret) ((attempts, guess, Feedback bulls cows) :: l)
                     → secret ∈ filtered) as Hkept.
        { intros l [Hh _]%Forall_cons. unfold honest in Hh. simpl in Hh.
          rewrite Hf. by apply list_elem_of_filter. }
        destruct filtered as [|c1 [|c2 filtered]].
        -- simpl. intros Hh%Hkept. by apply elem_of_nil in Hh.
        -- simpl. intros Hh%Hkept. apply list_elem_of_singleton in Hh.
           unfold found. simpl. done.
        -- destruct Hnext as (guess' & e & -> & Hin'); [simpl; lia|].
           specialize (IH (c1 :: c2 :: filtered) (attempts + 1)%Z guess' Hin').
           destruct (feedback_loop codes rest _ _ _) as [exchanges e'].
           simpl in *. intros Hall. pose proof (Hkept _ Hall) as Hs.
           apply Forall_cons in Hall as [_ Hall].
           specialize (IH Hs Hall). unfold found in *. simpl in *.
           destruct e'; try done.
           destruct IH as [before ->]. by exists ((attempts, guess, Feedback bulls cows) :: before).
      * specialize (IH possible_codes attempts guess Hin Hsecret).
        destruct (feedback_loop codes rest _ _ _) as [exchanges e'].
        simpl in *. intros [_ Hall]%Forall_cons.
        specialize (IH Hall). unfold found in *. simpl in *.
        destruct e'; try done.
        destruct IH as [before ->]. by exists ((attempts, guess, Feedback bulls cows) :: before).
    + specialize (IH possible_codes attempts guess Hin Hsecret).
      destruct (feedback_loop codes rest _ _ _) as [exchanges e'].
      simpl in *. intros [_ Hall]%Forall_cons.
      specialize (IH Hall). unfold found in *. simpl in *.
      destruct e'; try done.
      destruct IH as [before ->]. by exists ((attempts, guess, Unparsable) :: before).
Qed.

Lemma play_in_game :
  2 ≤ length codes →
  ∃ guess e, find_best_guess codes codes = Some (guess, e) ∧
             in_game codes guess.
Proof.
  intros Hsize.
  assert (codes ≠ []) as Hne.
  { intros Heq. rewrite Heq in Hsize. simpl in Hsize. lia. }
  assert (Forall indexable codes) as Hidx.
  { eapply Forall_impl; [exact Hlen|].
    intros c Hc. unfold indexable. simpl in Hc. lia. }
  destruct (find_best_guess_first_max codes Hne Hidx codes Hidx Hne)
    as (k & g & e & Hfbg & _).
  exists g, e. split; [done|]. split_and!; [done|done|by exists e].
Qed.
End Game.

Section Play.
Import ComputerGuessing.

Context (codes : list string).
Context (Hlen : Forall (λ code, String.length code = 4) codes).
Context (Hnd : NoDup codes).
Context (Hsize : 2 ≤ length codes).

Lemma play_safe inputs :
  (play codes inputs).2 ≠ Raised ∧
  Forall (λ x, (1 ≤ x.1.1 ≤ Z.of_nat (length codes) - 1)%Z ∧ x.1.2 ∈ codes)
    (play codes inputs).1.
Proof.
  destruct (play_in_game codes Hlen Hsize) as (guess & e & Hfbg & Hin).
  unfold play. rewrite Hfbg.
  destruct (feedback_loop_safe codes Hlen Hnd inputs codes 1 guess Hin)
    as [Hsafe Hall].
  split; [done|]. eapply Forall_impl; [exact Hall|].
  intros [[m g] r] [Hm ?]. simpl in *. split; [lia|done].
Qed.

Lemma play_honest secret inputs :
  secret ∈ codes →
  Forall (honest secret) (play codes inputs).1 →
  found secret (play codes inputs).
Proof.
  intros Hsecret.
  destruct (play_in_game codes Hlen Hsize) as (guess & e & Hfbg & Hin).
  unfold play. rewrite Hfbg.
  by apply (feedback_loop_honest codes Hlen Hnd).
Qed.
End Play.

Section AllCodes.
Import ComputerGuessing.

Lemma all_codes_length4 :
  Forall (λ code, String.length code = 4) all_codes.
Proof.
  apply Forall_forall. intros code Hin. by apply all_codes_elem_of in Hin as [? _].
Qed.

Lemma all_codes_two : 2 ≤ length all_codes.
Proof. pose proof all_codes_size. lia. Qed.
End AllCodes.

(** X12.  The list [all_codes] that both programs build holds every
    4-character string of distinct decimal digits exactly once: 5040 codes,
    none repeated. *)
Theorem all_codes_spec :
  Z.of_nat (length ComputerGuessing.all_codes) = 5040%Z ∧
  NoDup ComputerGuessing.all_codes ∧
  ∀ code,
    code ∈ ComputerGuessing.all_codes
    ↔ String.length code = 4 ∧ NoDup (list_ascii_of_string code) ∧
      Forall (λ c, is_digit c = true) (list_ascii_of_string code).
Proof.
  split_and!; [exact all_codes_size|exact all_codes_NoDup|].
  exact all_codes_elem_of.
Qed.

(** X13.  [is_valid_guess] accepts exactly the strings of four characters
    that are digits for [str.isdigit] and are pairwise different.  Every
    code of [all_codes] is a valid guess, and a valid guess written with the
    decimal digits 0 to 9 is a code of [all_codes]. *)
Theorem is_valid_guess_codes guess :
  (UserGuessing.is_valid_guess guess = true
   ↔ String.length guess = 4 ∧
     Forall (λ c, char_isdigit c = true) (list_ascii_of_string guess) ∧
     NoDup (list_ascii_of_string guess)) ∧
  (guess ∈ ComputerGuessing.all_codes
   ↔ UserGuessing.is_valid_guess guess = true ∧
     Forall (λ c, is_digit c = true) (list_ascii_of_string guess)).
Proof.
  split; [apply is_valid_guess_spec|].
  rewrite all_codes_elem_of, is_valid_guess_spec. split.
  - intros (Hlen & Hnd & Hd). split_and!; [done| |done|done].
    eapply Forall_impl; [exact Hd|]. apply is_digit_char_isdigit.
  - intros [(Hlen & _ & Hnd) Hd]. done.
Qed.

(** A superscript two is a digit for [str.isdigit] and no decimal digit: the
    guess is accepted and is none of the codes. *)
Example is_valid_guess_superscript :
  UserGuessing.is_valid_guess (String (ascii_of_nat 178) "134") = true ∧
  String (ascii_of_nat 178) "134" ∉ ComputerGuessing.all_codes.
Proof.
  split; [vm_compute; reflexivity|].
  intros (_ & _ & Hd)%all_codes_elem_of.
  apply Forall_cons in Hd as [Hd _]. vm_compute in Hd. discriminate.
Qed.




Section Liveness.
Import ComputerGuessing.

Context (codes : list string).
Context (Hlen : Forall (λ code, String.length code = 4) codes).
Context (Hnd : NoDup codes).

Lemma scorer_feedback_valid secret guess bulls cows :
  compute_feedback secret guess = Some (bulls, cows) →
  valid_feedback bulls cows = true.
Proof.
  intros Hfb.
  assert (indexable secret ∧ indexable guess) as [Hs Hg].
  { destruct (decide (indexable secret ∧ indexable guess)) as [|Hshort]; [done|].
    by rewrite compute_feedback_short_None in Hfb. }
  pose proof (compute_feedback_bound _ _ _ _ Hfb Hs Hg) as (Hb & Hc & Hbc).
  unfold valid_feedback. by rewrite !bool_decide_eq_true_2.
Qed.

(** Answering every guess with the feedback of the secret ends the game with
    the secret as the only code left. *)
Lemma feedback_loop_live secret n : ∀ possible_codes attempts guess,
  length possible_codes ≤ n →
  game_state codes possible_codes guess →
  secret ∈ possible_codes →
  ∃ inputs,
    length inputs < length possible_codes ∧
    Forall (honest secret)
      (feedback_loop codes inputs possible_codes attempts guess).1 ∧
    (feedback_loop codes inputs possible_codes attempts guess).2
    = OnlyOne secret.
Proof.
  induction n as [|n IH]; intros possible_codes attempts guess Hn Hin Hsecret.
  - destruct possible_codes; [by apply elem_of_nil in Hsecret|simpl in Hn; lia].
  - destruct (in_game_facts codes Hlen Hnd _ _ Hin)
      as (Hl & _ & Hmem & Hg & Hgl & _).
    assert (String.length secret = 4) as Hsl.
    { by apply (proj1 (Forall_forall _ _) Hl). }
    assert (is_Some (compute_feedback secret guess)) as [[bulls cows] Hfb].
    { rewrite compute_feedback_score by (unfold indexable; lia). by eexists. }
    pose proof (scorer_feedback_valid _ _ _ _ Hfb) as Hvalid.
    destruct (in_game_round codes Hlen Hnd _ _ bulls cows Hin)
      as (filtered & Hfilter & Hf & Hshrink & Hnext).
    assert (secret ∈ filtered) as Hkept.
    { rewrite Hf. by apply list_elem_of_filter. }
    assert (honest secret (attempts, guess, Feedback bulls cows)) as Hh by done.
    clear Hf. destruct filtered as [|c1 [|c2 tail]].
    + by apply elem_of_nil in Hkept.
    + apply list_elem_of_singleton in Hkept as <-.
      exists [Feedback bulls cows]. split_and!.
      * simpl in *. lia.
      * cbn [feedback_loop]. rewrite Hvalid, Hfilter. simpl. by repeat constructor.
      * cbn [feedback_loop]. by rewrite Hvalid, Hfilter.
    + destruct Hnext as (guess' & e & Hfbg & Hin'); [simpl; lia|].
      destruct (IH (c1 :: c2 :: tail) (attempts + 1)%Z guess')
        as (inputs & Hlen' & Hall & Hend); [lia|done|done|].
      exists (Feedback bulls cows :: inputs). split_and!.
      * cbn [length] in *. lia.
      * cbn [feedback_loop]. rewrite Hvalid, Hfilter, Hfbg.
        destruct (feedback_loop codes inputs _ _ _) as [exchanges e'].
        simpl in *. by constructor.
      * cbn [feedback_loop]. rewrite Hvalid, Hfilter, Hfbg.
        destruct (feedback_loop codes inputs _ _ _) as [exchanges e'].
        simpl in *. done.
Qed.

Lemma play_live secret :
  2 ≤ length codes → secret ∈ codes →
  ∃ inputs,
    length inputs < length codes ∧
    Forall (honest secret) (play codes inputs).1 ∧
    (play codes inputs).2 = OnlyOne secret.
Proof.
  intros Hsize Hsecret.
  destruct (play_in_game codes Hlen Hsize) as (guess & e & Hfbg & Hin).
  unfold play. rewrite Hfbg.
  by apply (feedback_loop_live secret (length codes)).
Qed.
End Liveness.



(** ** The user-guessing program *)

Section UserScorer.

Lemma sum_fmap_mono (f f' : ascii → Z) ds :
  (∀ d, d ∈ ds → (f d ≤ f' d)%Z) → (sum (f <$> ds) ≤ sum (f' <$> ds))%Z.
Proof.
  induction ds as [|d ds IH]; intros Hf; [done|].
  rewrite !fmap_cons, !sum_cons.
  assert (f d ≤ f' d)%Z by (apply Hf; by left).
  assert (sum (f <$> ds) ≤ sum (f' <$> ds))%Z; [|lia].
  apply IH. intros d' Hd'. apply Hf. by right.
Qed.

Lemma sum_count_le (ds l : list ascii) :
  NoDup ds → (sum ((λ d, count d l) <$> ds) ≤ Z.of_nat (length l))%Z.
Proof.
  intros Hnd. induction l as [|a l IH].
  - by rewrite sum_fmap_const_0.
  - destruct (decide (a ∈ ds)) as [Hin|Hin].
    + rewrite (sum_fmap_shift _ (λ d, count d l) ds a 1 Hnd Hin).
      * simpl. lia.
      * intros d _ Hne. by rewrite count_cons, decide_False.
      * rewrite count_cons, decide_True by done. lia.
    + rewrite (sum_fmap_ext _ (λ d, count d l)).
      * simpl. lia.
      * intros d Hd. rewrite count_cons, decide_False; [done|]. by intros ->.
Qed.

(** A position that matches uses one occurrence of its digit on each side. *)
Lemma bulls_le_common (s : list ascii) : ∀ g ds,
  NoDup ds → (∀ e, e ∈ g → e ∈ ds) →
  (sum ((λ sg, if decide (sg.1 = sg.2) then 1%Z else 0%Z) <$> zip s g)
   ≤ sum ((λ d, Z.min (count d s) (count d g)) <$> ds))%Z.
Proof.
  induction s as [|a s IH]; intros g ds Hnd Hg.
  - simpl. rewrite <- (sum_fmap_const_0 ds). apply sum_fmap_mono.
    intros d _. pose proof (count_nonneg d g). rewrite count_nil. lia.
  - destruct g as [|e g].
    + simpl. rewrite <- (sum_fmap_const_0 ds). apply sum_fmap_mono.
      intros d _. pose proof (count_nonneg d (a :: s)). rewrite count_nil. lia.
    + cbn [zip zip_with]. rewrite fmap_cons, sum_cons. cbn [fst snd].
      assert (∀ e', e' ∈ g → e' ∈ ds) as Hg' by (intros; apply Hg; by right).
      specialize (IH g ds Hnd Hg').
      destruct (decide (a = e)) as [->|Hne].
      * rewrite (sum_fmap_shift _ (λ d, Z.min (count d s) (count d g)) ds e 1);
          [lia|done|apply Hg; by left| |].
        -- intros d _ Hd. by rewrite !count_cons, !decide_False.
        -- rewrite !count_cons, !decide_True by done. lia.
      * etrans; [|apply (sum_fmap_mono (λ d, Z.min (count d s) (count d g)))].
        -- lia.
        -- intros d _. rewrite !count_cons.
           destruct (decide (d = a)); destruct (decide (d = e)); lia.
Qed.

Lemma user_feedback_bounds secret guess :
  (0 ≤ (UserGuessing.compute_feedback secret guess).1 ∧
   0 ≤ (UserGuessing.compute_feedback secret guess).2 ∧
   (UserGuessing.compute_feedback secret guess).1
   + (UserGuessing.compute_feedback secret guess).2
   ≤ Z.of_nat (String.length secret `min` String.length guess))%Z.
Proof.
  unfold UserGuessing.compute_feedback. cbn [fst snd].
  rewrite <- !length_list_ascii_of_string.
  set (s := list_ascii_of_string secret). set (g := list_ascii_of_string guess).
  set (ds := elements (list_to_set g : gset ascii)).
  assert (NoDup ds) as Hnd by apply NoDup_elements.
  assert (∀ e, e ∈ g → e ∈ ds) as Hds.
  { intros e He. unfold ds. by rewrite elem_of_elements, elem_of_list_to_set. }
  pose proof (bulls_le_common s g ds Hnd Hds) as Hle.
  assert (0 ≤ sum ((λ sg, if decide (sg.1 = sg.2) then 1%Z else 0%Z)
                     <$> zip s g))%Z as H0.
  { generalize (zip s g). intros l. induction l as [|p l IH]; [done|].
    rewrite fmap_cons, sum_cons. destruct (decide (p.1 = p.2)); lia. }
  assert (sum ((λ d, Z.min (count d s) (count d g)) <$> ds)
          ≤ Z.of_nat (length s))%Z as Hs.
  { etrans; [|apply (sum_count_le ds s Hnd)]. apply sum_fmap_mono.
    intros d _. lia. }
  assert (sum ((λ d, Z.min (count d s) (count d g)) <$> ds)
          ≤ Z.of_nat (length g))%Z as Hg.
  { etrans; [|apply (sum_count_le ds g Hnd)]. apply sum_fmap_mono.
    intros d _. lia. }
  lia.
Qed.

Lemma user_bulls_all secret guess :
  String.length secret = 4 → String.length guess = 4 →
  (UserGuessing.compute_feedback secret guess).1 = 4%Z ↔ secret = guess.
Proof.
  intros Hs Hg. unfold UserGuessing.compute_feedback. cbn [fst].
  rewrite <- mark_bulls_zip by (by rewrite !length_list_ascii_of_string, Hs, Hg).
  split.
  - intros Hb. apply list_ascii_of_string_inj, mark_bulls_all.
    + by rewrite !length_list_ascii_of_string, Hs, Hg.
    + by rewrite Hb, length_list_ascii_of_string, Hs.
  - intros <-. rewrite mark_bulls_self. cbn [snd].
    by rewrite length_list_ascii_of_string, Hs.
Qed.
End UserScorer.

(** X17.  The counting scorer never raises, whatever the two strings, and
    its feedback is within bounds: bulls and cows are not negative, and
    together they are at most the length of the shorter string. *)
Theorem user_compute_feedback_bounds secret guess :
  (0 ≤ (UserGuessing.compute_feedback secret guess).1 ∧
   0 ≤ (UserGuessing.compute_feedback secret guess).2 ∧
   (UserGuessing.compute_feedback secret guess).1
   + (UserGuessing.compute_feedback secret guess).2
   ≤ Z.of_nat (String.length secret `min` String.length guess))%Z.
Proof. apply user_feedback_bounds. Qed.

(** X18.  The win test of the user-guessing program is exact: for a secret
    and a guess of four characters, the scorer reports four bulls exactly
    when the guess is the secret. *)
Theorem user_four_bulls secret guess :
  String.length secret = 4 → String.length guess = 4 →
  (UserGuessing.compute_feedback secret guess).1 = 4%Z ↔ secret = guess.
Proof. apply user_bulls_all. Qed.

Lemma user_four_bulls_witness :
  String.length "1234" = 4 ∧ String.length "1243" = 4 ∧
  ((UserGuessing.compute_feedback "1234" "1243").1 = 4%Z
   ↔ "1234"%string = "1243"%string).
Proof.
  split; [reflexivity|]. split; [reflexivity|].
  exact (user_four_bulls "1234" "1243" eq_refl eq_refl).
Defined.

Section UserGame.
Import UserGuessing.
Local Open Scope R_scope.

Lemma ln_10_pos : 0 < ln 10.
Proof. rewrite <- ln_1. apply ln_increasing; lra. Qed.

Lemma calculate_current_entropy_value bulls cows :
  calculate_current_entropy bulls cows
  = Some (4 * (ln 10 / ln 2) * (1 - (IZR bulls / 4 + IZR cows / 8))).
Proof.
  unfold calculate_current_entropy. by rewrite log2_pos_Some by lra.
Qed.

Lemma current_entropy_range (bulls cows : Z) :
  (0 ≤ bulls)%Z → (0 ≤ cows)%Z → (bulls + cows ≤ 4)%Z →
  0 <= 1 - (IZR bulls / 4 + IZR cows / 8) <= 1 ∧
  (1 - (IZR bulls / 4 + IZR cows / 8) = 0 ↔ bulls = 4%Z).
Proof.
  intros Hb Hc Hbc.
  apply IZR_le in Hb, Hc, Hbc. rewrite plus_IZR in Hbc.
  split; [lra|]. split.
  - intros H0. apply eq_IZR. lra.
  - intros ->. assert (IZR cows = 0) by lra. lra.
Qed.

Lemma guess_loop_spec secret inputs : ∀ attempts,
  String.length secret = 4%nat → (1 ≤ attempts ≤ 20)%Z →
  won_by_secret secret (guess_loop secret inputs attempts) ∧
  (Z.of_nat (length (guess_loop secret inputs attempts).1) ≤ 21 - attempts)%Z ∧
  Forall (λ x, is_valid_guess x.1.1.2 = true ∧
               x.1.2 = compute_feedback secret x.1.1.2)
    (guess_loop secret inputs attempts).1.
Proof.
  induction inputs as [|guess rest IH]; intros attempts Hs Hn.
  - unfold won_by_secret. simpl. split_and!; [constructor|lia|constructor].
  - cbn [guess_loop]. destruct (decide (guess = "quit"%string)) as [->|_].
    { unfold won_by_secret. simpl. split_and!; [constructor|lia|constructor]. }
    destruct (is_valid_guess guess) eqn:Hvalid; [|by apply IH].
    pose proof (proj1 (is_valid_guess_spec guess) Hvalid) as (Hg & _ & _).
    pose proof (user_bulls_all secret guess Hs Hg) as Hwin.
    destruct (compute_feedback secret guess) as [bulls cows] eqn:Hfb.
    cbn [fst] in Hwin. rewrite calculate_current_entropy_value.
    destruct (decide (bulls = 4%Z)) as [->|Hb].
    + assert (secret = guess) as <- by (by apply Hwin).
      unfold won_by_secret. simpl. split_and!.
      * eexists [], (4%Z, cows), _. split; [done|constructor].
      * lia.
      * constructor; [|constructor]. simpl. by rewrite Hfb.
    + assert (guess ≠ secret) as Hne.
      { intros ->. by apply Hb, Hwin. }
      destruct (decide (20 ≤ attempts)%Z) as [H20|H20].
      * unfold won_by_secret. simpl. split_and!.
        -- by repeat constructor.
        -- lia.
        -- constructor; [|constructor]. simpl. by rewrite Hfb.
      * destruct (IH (attempts + 1)%Z Hs) as (Hwon & Hlen & Hall); [lia|].
        destruct (guess_loop secret rest (attempts + 1)) as [scored e].
        unfold won_by_secret in *. simpl in *. split_and!.
        -- destruct e; try done; try (by constructor).
           destruct Hwon as (before & fb & en & -> & Hbefore).
           eexists (_ :: before), fb, en. split; [done|]. by constructor.
        -- lia.
        -- constructor; [|done]. simpl. by rewrite Hfb.
Qed.
End UserGame.

(** X19.  For a feedback within the bounds of the scorer ([0 ≤ bulls],
    [0 ≤ cows], [bulls + cows ≤ 4]) the entropy that the user-guessing
    program shows is defined, lies between 0 and the initial
    [4 * log2(10)], and is 0 exactly at four bulls.  Floats are read as real
    numbers. *)
Theorem calculate_current_entropy_range bulls cows :
  (0 ≤ bulls)%Z → (0 ≤ cows)%Z → (bulls + cows ≤ 4)%Z →
  ∃ entropy,
    UserGuessing.calculate_current_entropy bulls cows = Some entropy ∧
    (0 <= entropy <= 4 * (ln 10 / ln 2))%R ∧
    (entropy = 0%R ↔ bulls = 4%Z).
Proof.
  intros Hb Hc Hbc. eexists. split; [apply calculate_current_entropy_value|].
  destruct (current_entropy_range bulls cows Hb Hc Hbc) as [[H0 H1] Hiff].
  pose proof ln_10_pos. pose proof ln_2_pos.
  assert (0 < 4 * (ln 10 / ln 2))%R as Hbase.
  { apply Rmult_lt_0_compat; [lra|]. by apply Rdiv_lt_0_compat. }
  split; [nra|]. rewrite <- Hiff. split; [nra|]. intros ->. lra.
Qed.

Lemma calculate_current_entropy_range_witness :
  (0 ≤ 2)%Z ∧ (0 ≤ 2)%Z ∧ (2 + 2 ≤ 4)%Z ∧
  ∃ entropy,
    UserGuessing.calculate_current_entropy 2 2 = Some entropy ∧
    (0 <= entropy <= 4 * (ln 10 / ln 2))%R ∧
    (entropy = 0%R ↔ 2%Z = 4%Z).
Proof.
  assert (0 ≤ 2)%Z as H0 by lia. assert (2 + 2 ≤ 4)%Z as H4 by lia.
  split; [exact H0|]. split; [exact H0|]. split; [exact H4|].
  exact (calculate_current_entropy_range 2 2 H0 H0 H4).
Defined.

(** X20.  The user-guessing game, for a secret of four characters and any
    lines of input: it never raises; it ends as won exactly when a scored
    guess is the secret, which is then the last guess scored; it scores at
    most 20 guesses; and every guess it scores is a valid guess with the
    feedback of the scorer.  Floats are read as real numbers. *)
Theorem user_main_spec secret inputs :
  String.length secret = 4 →
  won_by_secret secret (UserGuessing.main secret inputs) ∧
  (Z.of_nat (length (UserGuessing.main secret inputs).1) ≤ 20)%Z ∧
  Forall (λ x, UserGuessing.is_valid_guess x.1.1.2 = true ∧
               x.1.2 = UserGuessing.compute_feedback secret x.1.1.2)
    (UserGuessing.main secret inputs).1.
Proof.
  intros Hs. unfold UserGuessing.main.
  destruct (guess_loop_spec secret inputs 1 Hs) as (Hwon & Hlen & Hall); [lia|].
  split_and!; [done|lia|done].
Qed.

Lemma user_main_spec_witness :
  String.length "1234" = 4 ∧
  won_by_secret "1234" (UserGuessing.main "1234" ["12"; "1243"; "1234"; "5678"]) ∧
  (Z.of_nat (length
     (UserGuessing.main "1234" ["12"; "1243"; "1234"; "5678"]).1) ≤ 20)%Z ∧
  Forall (λ x, UserGuessing.is_valid_guess x.1.1.2 = true ∧
               x.1.2 = UserGuessing.compute_feedback "1234" x.1.1.2)
    (UserGuessing.main "1234" ["12"; "1243"; "1234"; "5678"]).1.
Proof.
  split; [reflexivity|].
  exact (user_main_spec "1234" ["12"; "1243"; "1234"; "5678"] eq_refl).
Defined.
